(** * Verification of the wall follower behaviour controller

    A shallow embedding of [HW4/wall_follower.py]: the two nearest-point
    searches over a laser scan, the shared [TurtlebotState] with its two
    subscriber callbacks, the five behaviour classes ([Turn], [Drive],
    [TurnToObject], [FollowObject], [WallFollow]) and the loops of [main].

    - Python floats are IEEE 754 binary64 values: they are Rocq's primitive
      floats, whose operations are the same binary64 operations, NaN and
      infinities included.
    - A Python exception is a result of the statement that raises it, and
      the state that statement leaves behind is kept.
    - The behaviour objects live in a store and the state refers to one of
      them by its position, so that the object an [act] marks done and the
      object [current_action] refers to are told apart.
    - Logging has no effect on what is modelled and is left out; so are the
      [rospy] transport and the timing of the loops.

    The definitions come first, in the order of the source; the facts on
    floats, on the searches and on single steps follow, then an invariant of
    every run, the properties of the specification, and their instances at
    concrete scans. *)

From Stdlib Require Import List Bool Arith ZArith PArith Lia.
From Stdlib Require Import Floats.
From Stdlib Require Uint63.
Import ListNotations.

(* A decimal literal denotes the nearest binary64 value, as in Python. *)
Set Warnings "-inexact-float".

(* ================================================================== *)
(** * Binary64 values: Python's comparisons *)
(* ================================================================== *)

Module F64.

Local Open Scope float_scope.

(** [x] is a number (not NaN): IEEE equality is reflexive exactly there. *)
Definition is_num (x : float) : bool := (x =? x).

(** Python's [a > b] and [a >= b] are [b < a] and [b <= a]. *)
Definition gtb (a b : float) : bool := (b <? a).
Definition geb (a b : float) : bool := (b <=? a).

(** The specification-level view of a float is a number unless it is NaN. *)
Definition sf_num (x : spec_float) : bool :=
  match x with S754_nan => false | _ => true end.

(** A rank that embeds the non-NaN values in a lexicographic order on
    triples of integers, and over which [SFcompare] is the comparison. *)
Definition sf_key (x : spec_float) : Z * Z * Z :=
  match x with
  | S754_nan => (0, 0, 0)
  | S754_zero _ => (0, 0, 0)
  | S754_infinity true => (-2, 0, 0)
  | S754_infinity false => (2, 0, 0)
  | S754_finite true m e => (-1, - e, - Zpos m)
  | S754_finite false m e => (1, e, Zpos m)
  end%Z.

Definition key_cmp (k1 k2 : Z * Z * Z) : comparison :=
  let '(a1, b1, c1) := k1 in
  let '(a2, b2, c2) := k2 in
  match (a1 ?= a2)%Z with
  | Eq => match (b1 ?= b2)%Z with
          | Eq => (c1 ?= c2)%Z
          | r => r
          end
  | r => r
  end.

Definition fkey (x : float) : Z * Z * Z := sf_key (Prim2SF x).

End F64.

(* ================================================================== *)
(** * Python values: exceptions, [min], [list.index], slices *)
(* ================================================================== *)

Import F64.

Inductive exn : Set :=
| ValueError      (* [min] of an empty sequence, [index] of an absent value *)
| TypeError       (* arithmetic on [None] *)
| AttributeError. (* an attribute read before it was ever assigned *)

Inductive result (A : Type) : Type :=
| Ok (a : A)
| Raise (e : exn).

Arguments Ok {A} a.
Arguments Raise {A} e.

Definition rbind {A B : Type} (c : result A) (k : A -> result B) : result B :=
  match c with
  | Ok a => k a
  | Raise e => Raise e
  end.

Declare Scope result_scope.
Delimit Scope result_scope with result.
Notation "x <- c ;; k" := (rbind c (fun x => k))
  (at level 61, c at next level, right associativity) : result_scope.

(** [min(it)]: the first item is kept, and replaced by every later item
    that is strictly smaller; an empty sequence raises [ValueError]. *)
Definition py_min (l : list float) : result float :=
  match l with
  | [] => Raise ValueError
  | x :: r => Ok (fold_left (fun m i => if (i <? m)%float then i else m) r x)
  end.

(** [l.index(v)]: the first position whose item equals [v], [ValueError]
    when there is none.  The values searched for below are strictly
    positive, so Python's identity shortcut (which only matters for NaN)
    never differs from [==]. *)
Fixpoint py_index (l : list float) (v : float) : result nat :=
  match l with
  | [] => Raise ValueError
  | x :: r =>
      if (x =? v)%float then Ok 0
      else match py_index r v with
           | Ok k => Ok (S k)
           | Raise e => Raise e
           end
  end.

(** [l[lo:hi]] for [0 <= lo <= hi]: the bounds are clamped to the list. *)
Definition slice (lo hi : nat) (l : list float) : list float :=
  skipn lo (firstn hi l).

(** The generator [(i for i in array if i > 0.0)]. *)
Definition positive (array : list float) : list float :=
  filter (fun i => gtb i 0) array.

(* ================================================================== *)
(** * The nearest-point searches *)
(* ================================================================== *)

Local Open Scope result_scope.

Definition findObj360 (array : list float) : result (nat * float) :=
  temp <- py_min (positive array) ;;
  i <- py_index array temp ;;
  Ok (i, temp).

Definition findObjFront (array : list float) : result (nat * float) :=
  temp <- py_min (positive (slice 0 45 array)) ;;
  temp2 <- py_min (positive (slice 315 360 array)) ;;
  if (temp <=? temp2)%float then
    i <- py_index (slice 0 45 array) temp ;;
    Ok (i, temp)
  else
    i <- py_index (slice 315 360 array) temp2 ;;
    Ok (i + 315, temp2).

(** ** What the searches are specified against *)

(** [v] is the least strictly positive reading among the indices
    [lo <= j < hi] of [array], and it is read at one of them. *)
Definition min_positive_in (array : list float) (lo hi : nat) (v : float) : Prop :=
  (exists j, lo <= j < hi /\ nth_error array j = Some v) /\
  (0 <? v)%float = true /\
  forall j x, lo <= j < hi -> nth_error array j = Some x ->
              (0 <? x)%float = true -> (v <=? x)%float = true.

(** No strictly positive reading among the indices [lo <= j < hi]. *)
Definition no_positive_in (array : list float) (lo hi : nat) : Prop :=
  forall j x, lo <= j < hi -> nth_error array j = Some x -> (0 <? x)%float = false.

(** [i] is the first index of [lo <= j < hi] at which [array] reads [v]. *)
Definition first_index_in (array : list float) (lo hi : nat) (v : float) (i : nat) : Prop :=
  lo <= i < hi /\ nth_error array i = Some v /\
  forall j, lo <= j < i -> nth_error array j <> Some v.

(* ================================================================== *)
(** * Messages, behaviour objects and the shared state *)
(* ================================================================== *)

(** [geometry_msgs/Twist]: of its six components the controller only ever
    writes [linear.x] and [angular.z]; the other four stay [0.0]. *)
Record Twist : Set := mkTwist {
  linear_x : float;
  angular_z : float
}.

(** [Twist()] *)
Definition Twist0 : Twist := {| linear_x := 0; angular_z := 0 |}.

(** The part of [nav_msgs/Odometry] the controller reads:
    [msg.pose.pose.orientation] and [msg.pose.pose.position]. *)
Record Odometry : Set := mkOdometry {
  orientation : float * float * float * float;   (* x, y, z, w *)
  position_x : float;
  position_y : float
}.

(** The part of [sensor_msgs/LaserScan] the controller reads. *)
Record LaserScan : Set := mkLaserScan {
  ranges : list float
}.

(** Objects of the five behaviour classes.  Each keeps a reference to the
    one [TurtlebotState]; that reference is implicit in the model. *)
Record Turn : Set := mkTurn {
  Turn_clockwise : bool;
  Turn_target_angle : float;
  Turn_done : bool
}.

Record Drive : Set := mkDrive {
  Drive_init_x : option float;
  Drive_init_y : option float;
  Drive_forward : bool;
  Drive_target_distance : float;
  Drive_done : bool
}.

Record TurnToObject : Set := mkTurnToObject {
  TurnToObject_done : bool
}.

Record FollowObject : Set := mkFollowObject {
  FollowObject_lower_bound : float;
  FollowObject_upper_bound : float;
  FollowObject_angle_err_lim : float;
  FollowObject_clockwise : bool;
  FollowObject_target_angle : float;
  FollowObject_done : bool
}.

Record WallFollow : Set := mkWallFollow {
  WallFollow_lower_bound : float;
  WallFollow_upper_bound : float;
  WallFollow_angle_err_lim : float;
  WallFollow_clockwise : bool;
  WallFollow_target_angle : float;
  WallFollow_done : bool
}.

Inductive Action : Set :=
| ATurn (t : Turn)
| ADrive (d : Drive)
| ATurnToObject (o : TurnToObject)
| AFollowObject (f : FollowObject)
| AWallFollow (f : WallFollow).

(** The class of an object, and its [done] attribute. *)
Inductive kind : Set := KTurn | KDrive | KTurnToObject | KFollowObject | KWallFollow.

Definition kind_of (a : Action) : kind :=
  match a with
  | ATurn _ => KTurn
  | ADrive _ => KDrive
  | ATurnToObject _ => KTurnToObject
  | AFollowObject _ => KFollowObject
  | AWallFollow _ => KWallFollow
  end.

Definition done (a : Action) : bool :=
  match a with
  | ATurn t => Turn_done t
  | ADrive d => Drive_done d
  | ATurnToObject o => TurnToObject_done o
  | AFollowObject f => FollowObject_done f
  | AWallFollow f => WallFollow_done f
  end.

(** [self.done = True] *)
Definition set_done (a : Action) : Action :=
  match a with
  | ATurn t => ATurn (mkTurn (Turn_clockwise t) (Turn_target_angle t) true)
  | ADrive d =>
      ADrive (mkDrive (Drive_init_x d) (Drive_init_y d) (Drive_forward d)
                (Drive_target_distance d) true)
  | ATurnToObject _ => ATurnToObject (mkTurnToObject true)
  | AFollowObject f =>
      AFollowObject
        (mkFollowObject (FollowObject_lower_bound f) (FollowObject_upper_bound f)
           (FollowObject_angle_err_lim f) (FollowObject_clockwise f)
           (FollowObject_target_angle f) true)
  | AWallFollow f =>
      AWallFollow
        (mkWallFollow (WallFollow_lower_bound f) (WallFollow_upper_bound f)
           (WallFollow_angle_err_lim f) (WallFollow_clockwise f)
           (WallFollow_target_angle f) true)
  end.

(** A reference to a behaviour object: its position in the store. *)
Definition ref : Set := nat.

(** The attributes of [TurtlebotState].  [angle], [x], [y] and
    [current_action] start as [None]; the four [closest_obj_*] attributes do
    not exist until a scan assigns them, and reading them before raises
    [AttributeError]. *)
Record TurtlebotState : Set := mkState {
  angle : option float;
  x : option float;
  y : option float;
  ready : bool;
  current_action : option ref;
  meter : bool;
  closest_obj_ang : option float;
  closest_obj_front : option (nat * float);
  closest_obj_front_ang : option float;
  closest_obj_front_dist : option float
}.

(** What a run can observe: the state object, the store of behaviour
    objects, and the messages published on [/cmd_vel], oldest first. *)
Record World : Set := mkWorld {
  state : TurtlebotState;
  objects : list Action;
  published : list Twist
}.

(** [TurtlebotState.__init__], up to its wait for [ready]. *)
Definition TurtlebotState_init : TurtlebotState :=
  {| angle := None; x := None; y := None; ready := false;
     current_action := None; meter := false;
     closest_obj_ang := None; closest_obj_front := None;
     closest_obj_front_ang := None; closest_obj_front_dist := None |}.

Definition World_init : World :=
  {| state := TurtlebotState_init; objects := []; published := [] |}.

(** Attribute assignments on the state object. *)
Definition set_pose (a px py : float) (s : TurtlebotState) : TurtlebotState :=
  mkState (Some a) (Some px) (Some py) (ready s) (current_action s) (meter s)
    (closest_obj_ang s) (closest_obj_front s) (closest_obj_front_ang s)
    (closest_obj_front_dist s).

Definition set_ready (b : bool) (s : TurtlebotState) : TurtlebotState :=
  mkState (angle s) (x s) (y s) b (current_action s) (meter s)
    (closest_obj_ang s) (closest_obj_front s) (closest_obj_front_ang s)
    (closest_obj_front_dist s).

Definition set_current_action (r : ref) (s : TurtlebotState) : TurtlebotState :=
  mkState (angle s) (x s) (y s) (ready s) (Some r) (meter s)
    (closest_obj_ang s) (closest_obj_front s) (closest_obj_front_ang s)
    (closest_obj_front_dist s).

Definition set_meter (b : bool) (s : TurtlebotState) : TurtlebotState :=
  mkState (angle s) (x s) (y s) (ready s) (current_action s) b
    (closest_obj_ang s) (closest_obj_front s) (closest_obj_front_ang s)
    (closest_obj_front_dist s).

Definition set_closest_obj_ang (v : float) (s : TurtlebotState) : TurtlebotState :=
  mkState (angle s) (x s) (y s) (ready s) (current_action s) (meter s)
    (Some v) (closest_obj_front s) (closest_obj_front_ang s)
    (closest_obj_front_dist s).

Definition set_closest_obj_front (p : nat * float) (s : TurtlebotState) : TurtlebotState :=
  mkState (angle s) (x s) (y s) (ready s) (current_action s) (meter s)
    (closest_obj_ang s) (Some p) (closest_obj_front_ang s)
    (closest_obj_front_dist s).

Definition set_closest_obj_front_ang (v : float) (s : TurtlebotState) : TurtlebotState :=
  mkState (angle s) (x s) (y s) (ready s) (current_action s) (meter s)
    (closest_obj_ang s) (closest_obj_front s) (Some v)
    (closest_obj_front_dist s).

Definition set_closest_obj_front_dist (v : float) (s : TurtlebotState) : TurtlebotState :=
  mkState (angle s) (x s) (y s) (ready s) (current_action s) (meter s)
    (closest_obj_ang s) (closest_obj_front s) (closest_obj_front_ang s)
    (Some v).

(** Assignment at a position of the store; nothing happens out of range
    (a reference always comes from an allocation, so it is in range). *)
Fixpoint store_set (l : list Action) (r : ref) (a : Action) : list Action :=
  match l, r with
  | [], _ => []
  | _ :: l', 0 => a :: l'
  | b :: l', S r' => b :: store_set l' r' a
  end.

(* ================================================================== *)
(** * Statements: state passing with exceptions *)
(* ================================================================== *)

(** A statement runs in a world and ends with a value or with an exception;
    either way the world it leaves behind is kept: what was assigned before
    an exception stays assigned. *)
Definition M (A : Type) : Type := World -> result A * World.

Definition ret {A : Type} (a : A) : M A := fun w => (Ok a, w).

Definition raise {A : Type} (e : exn) : M A := fun w => (Raise e, w).

Definition bind {A B : Type} (c : M A) (k : A -> M B) : M B :=
  fun w =>
    match c w with
    | (Ok a, w') => k a w'
    | (Raise e, w') => (Raise e, w')
    end.

Declare Scope py_scope.
Delimit Scope py_scope with py.
Bind Scope py_scope with M.
Notation "x <- c ;; k" := (bind c (fun x => k))
  (at level 61, c at next level, right associativity) : py_scope.
Notation "c ;; k" := (bind c (fun _ => k))
  (at level 61, right associativity) : py_scope.

(** The four ways a statement changes the world. *)
Definition on_state (f : TurtlebotState -> TurtlebotState) (w : World) : World :=
  mkWorld (f (state w)) (objects w) (published w).

Definition sent (t : Twist) (w : World) : World :=
  mkWorld (state w) (objects w) (published w ++ [t]).

Definition stored (a : Action) (w : World) : World :=
  mkWorld (state w) (objects w ++ [a]) (published w).

Definition marked (self : ref) (a : Action) (w : World) : World :=
  mkWorld (state w) (store_set (objects w) self (set_done a)) (published w).

(** A pure computation that may raise. *)
Definition lift {A : Type} (r : result A) : M A := fun w => (r, w).

Definition get_state : M TurtlebotState := fun w => (Ok (state w), w).

(** An attribute assignment on the state object. *)
Definition assign (f : TurtlebotState -> TurtlebotState) : M unit :=
  fun w => (Ok tt, on_state f w).

(** Reading an attribute that exists only once assigned. *)
Definition attr {A : Type} (f : TurtlebotState -> option A) : M A :=
  fun w =>
    match f (state w) with
    | Some v => (Ok v, w)
    | None => (Raise AttributeError, w)
    end.

(** Using a value that may still be [None] as a number. *)
Definition number (o : option float) : M float :=
  match o with
  | Some v => ret v
  | None => raise TypeError
  end.

(** [self.state.cmd_vel.publish(t)] *)
Definition publish (t : Twist) : M unit :=
  fun w => (Ok tt, sent t w).

(** A new object: it gets the next position of the store. *)
Definition alloc (a : Action) : M ref :=
  fun w => (Ok (length (objects w)), stored a w).

(** The object behind a reference. *)
Definition deref (r : ref) : M Action :=
  fun w =>
    match nth_error (objects w) r with
    | Some a => (Ok a, w)
    | None => (Raise AttributeError, w)
    end.

(** [self.done = True] on the object behind [self]. *)
Definition mark_done (self : ref) : M unit :=
  fun w =>
    match nth_error (objects w) self with
    | Some a => (Ok tt, marked self a w)
    | None => (Raise AttributeError, w)
    end.

(** The [done] attribute of the object behind a reference, and its class. *)
Definition done_of (w : World) (r : ref) : option bool :=
  option_map done (nth_error (objects w) r).

Definition kind_at (w : World) (r : ref) : option kind :=
  option_map kind_of (nth_error (objects w) r).

(* ================================================================== *)
(** * The controller *)
(* ================================================================== *)

Section Controller.

(** What the file imports and does not define: the two helpers of the
    [angles] module, the one of the [distances] module, and
    [tf.transformations.euler_from_quaternion].  The controller is verified
    for whatever total functions they are. *)
Variable rectify_angle_pi : float -> float.
Variable degrees_to_radians : nat -> float.
Variable euclidian_distance : float -> float -> float -> float -> float.
Variable euler_from_quaternion :
  float * float * float * float -> float * float * float.

Local Open Scope py_scope.

Definition yaw_from_odom (msg : Odometry) : float :=
  let '(_, _, yaw) := euler_from_quaternion (orientation msg) in yaw.

(** ** [Turn] *)

(** [Turn.__init__(self, state, angle)]: the attributes of the new object.
    The parameter [angle] is called [delta] here, [angle] being the
    attribute of the state. *)
Definition Turn_init (delta : float) : M Turn :=
  let clockwise := if geb delta 0 then false else true in
  s <- get_state ;;
  a <- number (angle s) ;;
  ret {| Turn_clockwise := clockwise;
         Turn_target_angle := rectify_angle_pi (a + delta);
         Turn_done := false |}.

(** [Turn.act(self)] *)
Definition Turn_act (self : ref) (t : Turn) : M unit :=
  s <- get_state ;;
  a <- number (angle s) ;;
  let error : float := abs (Turn_target_angle t - a) in
  if gtb error 0.02 then
    publish {| linear_x := 0;
               angular_z := if Turn_clockwise t then -0.2 else 0.2 |}
  else
    publish Twist0 ;;
    mark_done self.

(** ** [Drive] *)

Definition Drive_init (distance : float) : M Drive :=
  s <- get_state ;;
  ret {| Drive_init_x := x s;
         Drive_init_y := y s;
         Drive_forward := if geb distance 0 then true else false;
         Drive_target_distance := abs distance;
         Drive_done := false |}.

Definition Drive_act (self : ref) (d : Drive) : M unit :=
  s <- get_state ;;
  ix <- number (Drive_init_x d) ;;
  sx <- number (x s) ;;
  iy <- number (Drive_init_y d) ;;
  sy <- number (y s) ;;
  let error : float := abs (Drive_target_distance d - euclidian_distance ix sx iy sy) in
  if gtb error 0.02 then
    publish {| linear_x := if Drive_forward d then 0.2 else -0.2;
               angular_z := 0 |}
  else
    publish Twist0 ;;
    mark_done self.

(** ** [TurnToObject] *)

Definition TurnToObject_init : M TurnToObject :=
  ret {| TurnToObject_done := false |}.

(** [TurnToObject.act(self)]: a new [Turn] becomes the current action, and
    it is the dispatcher object, no longer referenced by the state, that is
    marked done. *)
Definition TurnToObject_act (self : ref) (o : TurnToObject) : M unit :=
  ca <- attr closest_obj_ang ;;
  let goal := rectify_angle_pi ca in
  _ <- attr closest_obj_front_ang ;;          (* read for the log line *)
  t <- Turn_init goal ;;
  r <- alloc (ATurn t) ;;
  assign (set_current_action r) ;;
  mark_done self.

(** ** [FollowObject] *)

Definition FollowObject_init : M FollowObject :=
  fa <- attr closest_obj_front_ang ;;
  let goal_angle := rectify_angle_pi fa in
  let clockwise := if geb goal_angle 0 then false else true in
  s <- get_state ;;
  a <- number (angle s) ;;
  ret {| FollowObject_lower_bound := 0.4;
         FollowObject_upper_bound := 0.6;
         FollowObject_angle_err_lim := 0.04;
         FollowObject_clockwise := clockwise;
         FollowObject_target_angle := rectify_angle_pi (a + goal_angle);
         FollowObject_done := false |}.

Definition FollowObject_act (self : ref) (f : FollowObject) : M unit :=
  _ <- attr closest_obj_front_ang ;;          (* [goal], computed and unused *)
  s <- get_state ;;
  a <- number (angle s) ;;
  let error : float := abs (FollowObject_target_angle f - a) in
  let angular : float :=
    (if gtb error (FollowObject_angle_err_lim f) then
       if FollowObject_clockwise f then -0.4 else 0.4
     else 0)%float in
  d <- attr closest_obj_front_dist ;;
  let linear : float :=
    (if gtb d (FollowObject_upper_bound f) || (d <? FollowObject_lower_bound f) then
       if gtb (d - 0.5) 0 then 0.15 else -0.15
     else 0)%float in
  publish {| linear_x := linear; angular_z := angular |} ;;
  (if (error <=? FollowObject_angle_err_lim f)%float
      && ((d <=? FollowObject_upper_bound f)%float && geb d (FollowObject_lower_bound f))
   then publish Twist0
   else ret tt) ;;
  mark_done self.

(** ** [WallFollow] *)

Definition WallFollow_init : M WallFollow :=
  fa <- attr closest_obj_front_ang ;;
  let goal_angle := rectify_angle_pi fa in
  let clockwise := if geb goal_angle 0 then false else true in
  s <- get_state ;;
  a <- number (angle s) ;;
  ret {| WallFollow_lower_bound := 0.9;
         WallFollow_upper_bound := 1.1;
         WallFollow_angle_err_lim := 0.04;
         WallFollow_clockwise := clockwise;
         WallFollow_target_angle := rectify_angle_pi (a + goal_angle);
         WallFollow_done := false |}.

Definition WallFollow_act (self : ref) (f : WallFollow) : M unit :=
  _ <- attr closest_obj_front_ang ;;          (* [goal], computed and unused *)
  s <- get_state ;;
  a <- number (angle s) ;;
  let error : float := abs (WallFollow_target_angle f - a) in
  let angular : float :=
    (if gtb error (WallFollow_angle_err_lim f) then
       if WallFollow_clockwise f then -0.4 else 0.4
     else 0)%float in
  d <- attr closest_obj_front_dist ;;
  let linear : float :=
    (if gtb d (WallFollow_upper_bound f) || (d <? WallFollow_lower_bound f) then
       if gtb (d - 0.5) 0 then 0.15 else -0.15
     else 0)%float in
  publish {| linear_x := linear; angular_z := angular |} ;;
  (if (error <=? WallFollow_angle_err_lim f)%float
      && ((d <=? WallFollow_upper_bound f)%float && geb d (WallFollow_lower_bound f))
   then publish Twist0 ;; assign (set_meter true)
   else ret tt) ;;
  mark_done self.

(** ** Calling [act] on a reference: the class of the object decides *)

Definition act (self : ref) : M unit :=
  a <- deref self ;;
  match a with
  | ATurn t => Turn_act self t
  | ADrive d => Drive_act self d
  | ATurnToObject o => TurnToObject_act self o
  | AFollowObject f => FollowObject_act self f
  | AWallFollow f => WallFollow_act self f
  end.

(** ** The two subscriber callbacks of [TurtlebotState] *)

Definition update_odom (msg : Odometry) : M unit :=
  assign (set_pose (yaw_from_odom msg) (position_x msg) (position_y msg)) ;;
  assign (set_ready true).

Definition update_scan (msg : LaserScan) : M unit :=
  r <- lift (findObj360 (ranges msg)) ;;
  assign (set_closest_obj_ang (degrees_to_radians (fst r))) ;;
  f <- lift (findObjFront (ranges msg)) ;;
  assign (set_closest_obj_front f) ;;
  assign (set_closest_obj_front_ang (degrees_to_radians (fst f))) ;;
  assign (set_closest_obj_front_dist (snd f)) ;;
  assign (set_ready true).

(** ** The loops of [main] *)

(** [state.current_action = C(state, ...)]: the constructor runs, the new
    object is stored, the state refers to it. *)
Definition install (c : M Action) : M unit :=
  a <- c ;;
  r <- alloc a ;;
  assign (set_current_action r).

Definition new_Turn (delta : float) : M Action :=
  t <- Turn_init delta ;; ret (ATurn t).
Definition new_Drive (distance : float) : M Action :=
  d <- Drive_init distance ;; ret (ADrive d).
Definition new_TurnToObject : M Action :=
  o <- TurnToObject_init ;; ret (ATurnToObject o).
Definition new_FollowObject : M Action :=
  f <- FollowObject_init ;; ret (AFollowObject f).
Definition new_WallFollow : M Action :=
  f <- WallFollow_init ;; ret (AWallFollow f).

(** The object [state.current_action] refers to. *)
Definition current : M ref :=
  s <- get_state ;;
  match current_action s with
  | Some r => ret r
  | None => raise AttributeError
  end.

(** One pass through a loop body either goes on to the next pass or
    leaves the loop. *)
Inductive flow : Set := Next | Break.

(** Lines 331-336, 352-357, 371-376 and 379-384:
    [if not done: act() else: break]. *)
Definition pass_until_done : M flow :=
  r <- current ;;
  a <- deref r ;;
  if negb (done a) then act r ;; ret Next
  else ret Break.

(** Lines 339-344: [if not done: act() else: current_action = WallFollow(state)];
    this loop has no [break]. *)
Definition pass_follow_object : M flow :=
  r <- current ;;
  a <- deref r ;;
  if negb (done a) then act r ;; ret Next
  else install new_WallFollow ;; ret Next.

(** Lines 360-368: [if not done: act() elif meter is True: break
    else: current_action = WallFollow(state)]. *)
Definition pass_wall_follow : M flow :=
  r <- current ;;
  a <- deref r ;;
  if negb (done a) then act r ;; ret Next
  else
    s <- get_state ;;
    if meter s then ret Break
    else install new_WallFollow ;; ret Next.

(** A loop run for at most [n] passes (the robot can be shut down between
    any two passes). *)
Fixpoint passes (n : nat) (body : M flow) : M flow :=
  match n with
  | 0 => ret Next
  | S n' =>
      f <- body ;;
      match f with
      | Break => ret Break
      | Next => passes n' body
      end
  end.

(** ** Runs *)

(** What happens to the world between its creation and any later moment is
    a sequence of these: a callback handles a message, [main] assigns a new
    behaviour to [current_action], or [act] is called on a behaviour.  [main]
    only ever calls [act] on the current action; a run may call it on any
    object, which covers [main]. *)
Inductive constructor : Set :=
| CTurn (delta : float)
| CDrive (distance : float)
| CTurnToObject
| CFollowObject
| CWallFollow.

Definition construct (c : constructor) : M Action :=
  match c with
  | CTurn delta => new_Turn delta
  | CDrive distance => new_Drive distance
  | CTurnToObject => new_TurnToObject
  | CFollowObject => new_FollowObject
  | CWallFollow => new_WallFollow
  end.

Inductive event : Set :=
| EOdom (msg : Odometry)
| EScan (msg : LaserScan)
| EInstall (c : constructor)
| EAct (r : ref).

Definition handle (e : event) : M unit :=
  match e with
  | EOdom msg => update_odom msg
  | EScan msg => update_scan msg
  | EInstall c => install (construct c)
  | EAct r => act r
  end.

(** An exception ends the statement that raised it, and the world it
    leaves is where the run goes on: rospy logs what a callback raises and
    keeps the node alive.  An exception raised by [act] ends [main]; a run
    that goes on after it covers that case too. *)
Definition run (es : list event) (w : World) : World :=
  fold_left (fun w e => snd (handle e w)) es w.

Definition reachable (w : World) : Prop :=
  exists es, w = run es World_init.

End Controller.

(* ================================================================== *)
(** * The imported helpers, for the examples *)
(* ================================================================== *)

(** [math.pi] *)
Definition pi : float := 0x1.921fb54442d18p+1.

(** Modelled from the spec: [angles.rectify_angle_pi] is not part of the
    file; the specification describes it as "repeatedly add/subtract 2 pi
    until the value falls in range", the range being (-pi, pi].  The number
    of rounds is bounded here. *)
Fixpoint rectify_rounds (n : nat) (a : float) : float :=
  match n with
  | 0 => a
  | S n' =>
      if (pi <? a)%float then rectify_rounds n' (a - 2 * pi)%float
      else if (a <=? - pi)%float then rectify_rounds n' (a + 2 * pi)%float
      else a
  end.

Definition rectify_angle_pi_model (a : float) : float := rectify_rounds 64 a.

(** Modelled from the spec: [angles.degrees_to_radians] is not part of the
    file; the specification gives it as the conversion of a bearing in
    degrees to radians. *)
Definition degrees_to_radians_model (d : nat) : float :=
  (of_uint63 (Uint63.of_Z (Z.of_nat d)) * pi / 180)%float.

(** Modelled from the spec: [distances.euclidian_distance] is not part of
    the file; the specification uses it as the straight-line distance
    between [(x1, y1)] and [(x2, y2)], the arguments coming in the order
    [x1, x2, y1, y2]. *)
Definition euclidian_distance_model (x1 x2 y1 y2 : float) : float :=
  sqrt ((x2 - x1) * (x2 - x1) + (y2 - y1) * (y2 - y1))%float.

(** A stand-in for [tf.transformations.euler_from_quaternion] in the
    examples: it is exact on the identity rotation [(0, 0, 0, 1)], the only
    orientation the examples use. *)
Definition euler_of_identity (q : float * float * float * float)
  : float * float * float := (0, 0, 0)%float.

(** The shortest angular distance between two headings, through the
    +-pi boundary when that is shorter. *)
Definition wrapped_distance (a b : float) : float :=
  let d := abs (a - b)%float in
  if (d <=? pi)%float then d else (2 * pi - d)%float.

(** [a] lies in (-pi, pi]. *)
Definition in_half_open_pi (a : float) : bool :=
  ((- pi <? a) && (a <=? pi))%float.

(* ================================================================== *)
(** * Definitions the statements below are written with *)
(* ================================================================== *)

(** The command of one [Turn] step that is not yet within tolerance. *)
Definition Turn_command (t : Turn) : Twist :=
  {| linear_x := 0; angular_z := if Turn_clockwise t then -0.2 else 0.2 |}.

(** The combined command of [FollowObject.act] and [WallFollow.act]. *)
Definition follow_command (lower upper lim : float) (clockwise : bool)
    (error d : float) : Twist :=
  {| linear_x :=
       (if gtb d upper || (d <? lower) then
          if gtb (d - 0.5) 0 then 0.15 else -0.15
        else 0)%float;
     angular_z :=
       (if gtb error lim then if clockwise then -0.4 else 0.4 else 0)%float |}.

(** Their test for "the robot is in a desired position". *)
Definition in_position (lower upper lim error d : float) : bool :=
  ((error <=? lim) && ((d <=? upper) && geb d lower))%float.

(** Whatever a behaviour object read when it was constructed is still there:
    the sensed attributes are assigned by the callbacks and never removed. *)
Definition object_ok (s : TurtlebotState) (a : Action) : Prop :=
  match a with
  | ATurn _ => angle s <> None
  | AFollowObject f =>
      angle s <> None /\ closest_obj_front_ang s <> None /\
      FollowObject_lower_bound f = 0.4%float /\
      FollowObject_upper_bound f = 0.6%float /\
      FollowObject_angle_err_lim f = 0.04%float
  | AWallFollow f =>
      angle s <> None /\ closest_obj_front_ang s <> None /\
      WallFollow_lower_bound f = 0.9%float /\
      WallFollow_upper_bound f = 1.1%float /\
      WallFollow_angle_err_lim f = 0.04%float
  | ADrive _ | ATurnToObject _ => True
  end.

(** The bearing and the distance of the forward cone are assigned together,
    and every object of the store is consistent with the state. *)
Definition invariant (w : World) : Prop :=
  (closest_obj_front_ang (state w) <> None ->
   closest_obj_front_dist (state w) <> None) /\
  (forall r a, nth_error (objects w) r = Some a -> object_ok (state w) a).

(** The sensed attributes that objects depend on are the same in [s']. *)
Definition same_sensed (s s' : TurtlebotState) : Prop :=
  angle s' = angle s /\
  closest_obj_front_ang s' = closest_obj_front_ang s /\
  closest_obj_front_dist s' = closest_obj_front_dist s.

(** How one call of [act] on [r] can change the store. *)
Definition store_step (r : ref) (w w' : World) : Prop :=
  objects w' = objects w \/
  exists a, nth_error (objects w) r = Some a /\
    (objects w' = store_set (objects w) r (set_done a) \/
     exists t, angle (state w) <> None /\
               objects w' = store_set (objects w ++ [ATurn t]) r (set_done a)).

(** The attributes the callbacks assign. *)
Definition same_readings (s s' : TurtlebotState) : Prop :=
  angle s' = angle s /\ x s' = x s /\ y s' = y s /\ ready s' = ready s /\
  closest_obj_ang s' = closest_obj_ang s /\
  closest_obj_front s' = closest_obj_front s /\
  closest_obj_front_ang s' = closest_obj_front_ang s /\
  closest_obj_front_dist s' = closest_obj_front_dist s.

(** Nothing that was assigned or set in [s] is missing or reset in [s']. *)
Definition never_cleared (s s' : TurtlebotState) : Prop :=
  (ready s = true -> ready s' = true) /\
  (meter s = true -> meter s' = true) /\
  (angle s <> None -> angle s' <> None) /\
  (x s <> None -> x s' <> None) /\
  (y s <> None -> y s' <> None) /\
  (closest_obj_ang s <> None -> closest_obj_ang s' <> None) /\
  (closest_obj_front s <> None -> closest_obj_front s' <> None) /\
  (closest_obj_front_ang s <> None -> closest_obj_front_ang s' <> None) /\
  (closest_obj_front_dist s <> None -> closest_obj_front_dist s' <> None).

(** Unfolding of statements. *)
Ltac unfold_m :=
  repeat (progress (unfold bind, ret, raise, lift, get_state, assign, attr,
                      number, publish, alloc, deref, mark_done;
                    cbn beta iota)).

Ltac step_m Hobj :=
  repeat (first
    [ progress unfold_m
    | progress simpl
    | rewrite Hobj
    | match goal with
      | |- context [match ?f (state ?w) with _ => _ end] =>
          destruct (f (state w)) eqn:?
      | |- context [match Drive_init_x ?d with _ => _ end] =>
          destruct (Drive_init_x d) eqn:?
      | |- context [match Drive_init_y ?d with _ => _ end] =>
          destruct (Drive_init_y d) eqn:?
      | |- context [if ?b then _ else _] => destruct b eqn:?
      end ]).

(* ================================================================== *)
(** * Example scans and worlds *)
(* ================================================================== *)

(** A pose message with the identity orientation at the origin. *)
Definition odom_identity : Odometry :=
  {| orientation := (0, 0, 0, 1)%float; position_x := 0; position_y := 0 |}.

(** 360 readings: an object at 0.5 m at bearing 30, one at 0.3 m at
    bearing 90, one at 0.7 m at bearing 330. *)
Definition scan_example : LaserScan :=
  {| ranges := repeat 0%float 30 ++ [0.5%float] ++ repeat 0%float 59
               ++ [0.3%float] ++ repeat 0%float 239 ++ [0.7%float]
               ++ repeat 0%float 29 |}.

(** 360 readings whose only return is at 0.5 m at bearing 10. *)
Definition scan_left_only : list float :=
  repeat 0%float 10 ++ [0.5%float] ++ repeat 0%float 349.

(** 360 readings whose only return is at 2 m at bearing 100. *)
Definition scan_behind : LaserScan :=
  {| ranges := repeat 0%float 100 ++ [2%float] ++ repeat 0%float 259 |}.

(** 360 readings with the same least distance in both half cones: 0.5 m at
    bearings 10, 20 and 320. *)
Definition scan_tie : list float :=
  repeat 0%float 10 ++ [0.5%float] ++ repeat 0%float 9 ++ [0.5%float]
  ++ repeat 0%float 299 ++ [0.5%float] ++ repeat 0%float 39.

(** 360 readings: a wall at 1 m straight ahead, seen also at 1.2 m at
    bearing 350. *)
Definition scan_wall : LaserScan :=
  {| ranges := [1%float] ++ repeat 0%float 349 ++ [1.2%float]
               ++ repeat 0%float 9 |}.

(** Runs with the modelled helpers. *)
Definition run_example : list event -> World -> World :=
  run rectify_angle_pi_model degrees_to_radians_model euclidian_distance_model
    euler_of_identity.

Definition act_example : ref -> M unit :=
  act rectify_angle_pi_model euclidian_distance_model.

(** A [TurnToObject] installed before any message has arrived. *)
Definition world_blind : World :=
  run_example [EInstall CTurnToObject] World_init.

(** A pose message and a scan, no behaviour yet. *)
Definition world_sensed : World :=
  run_example [EOdom odom_identity; EScan scan_example] World_init.





(** One pose message, then a [Drive] of one metre. *)
Definition world_drive : World :=
  run_example [EOdom odom_identity; EInstall (CDrive 1)] World_init.

(** One pose message, one scan, then each of the three scan-driven
    behaviours. *)
Definition world_turn_to_object : World :=
  run_example [EOdom odom_identity; EScan scan_example; EInstall CTurnToObject]
    World_init.

Definition world_follow : World :=
  run_example [EOdom odom_identity; EScan scan_example; EInstall CFollowObject]
    World_init.

Definition world_wall : World :=
  run_example [EOdom odom_identity; EScan scan_wall; EInstall CWallFollow]
    World_init.

(* ================================================================== *)
(** * Order facts on binary64 values *)
(* ================================================================== *)

Module F64Facts.

Import F64.
Local Open Scope float_scope.

Section SpecOrder.

Local Open Scope Z_scope.


Lemma SFcompare_some_num (a b : spec_float) (c : comparison) :
  SFcompare a b = Some c -> sf_num a = true /\ sf_num b = true.
Proof.
  destruct a as [sa|sa| |sa ma ea], b as [sb|sb| |sb mb eb];
    simpl; intros; try discriminate; auto.
Qed.



Lemma SFcompare_key (a b : spec_float) :
  sf_num a = true -> sf_num b = true ->
  SFcompare a b = Some (key_cmp (sf_key a) (sf_key b)).
Proof.
  destruct a as [sa|sa| |sa ma ea], b as [sb|sb| |sb mb eb];
    simpl; intros; try discriminate;
    try (destruct sa; reflexivity);
    try (destruct sb; reflexivity);
    try (destruct sa, sb; reflexivity).
  change (Pos.compare_cont Eq ma mb) with (Pos.compare ma mb).
  destruct sa, sb; simpl; try reflexivity.
  rewrite (Z.compare_opp ea eb), (Z.compare_antisym ea eb).
  destruct (ea ?= eb); simpl; reflexivity.
Qed.

Lemma key_cmp_le_trans (k1 k2 k3 : Z * Z * Z) :
  key_cmp k1 k2 <> Gt -> key_cmp k2 k3 <> Gt -> key_cmp k1 k3 <> Gt.
Proof.
  destruct k1 as [[a1 b1] c1], k2 as [[a2 b2] c2], k3 as [[a3 b3] c3].
  unfold key_cmp.
  destruct (Z.compare_spec a1 a2), (Z.compare_spec a2 a3),
    (Z.compare_spec a1 a3); try lia; try congruence;
    destruct (Z.compare_spec b1 b2), (Z.compare_spec b2 b3),
      (Z.compare_spec b1 b3); try lia; try congruence;
    destruct (Z.compare_spec c1 c2), (Z.compare_spec c2 c3),
      (Z.compare_spec c1 c3); try lia; congruence.
Qed.

Lemma key_cmp_lt_le_trans (k1 k2 k3 : Z * Z * Z) :
  key_cmp k1 k2 = Lt -> key_cmp k2 k3 <> Gt -> key_cmp k1 k3 = Lt.
Proof.
  destruct k1 as [[a1 b1] c1], k2 as [[a2 b2] c2], k3 as [[a3 b3] c3].
  unfold key_cmp.
  destruct (Z.compare_spec a1 a2), (Z.compare_spec a2 a3),
    (Z.compare_spec a1 a3); try lia; try congruence;
    destruct (Z.compare_spec b1 b2), (Z.compare_spec b2 b3),
      (Z.compare_spec b1 b3); try lia; try congruence;
    destruct (Z.compare_spec c1 c2), (Z.compare_spec c2 c3),
      (Z.compare_spec c1 c3); try lia; congruence.
Qed.

End SpecOrder.

(** ** The same facts on primitive floats, through their specification *)


Lemma is_num_spec (x : float) :
  is_num x = true <-> sf_num (Prim2SF x) = true.
Proof.
  unfold is_num. rewrite eqb_spec. unfold SFeqb. split.
  - destruct (SFcompare (Prim2SF x) (Prim2SF x)) as [c|] eqn:E;
      [ | discriminate ].
    intros _. apply (SFcompare_some_num _ _ _ E).
  - intros H. rewrite (SFcompare_key _ _ H H).
    destruct (sf_key (Prim2SF x)) as [[a b] c]. unfold key_cmp.
    rewrite !Z.compare_refl. reflexivity.
Qed.

Lemma compare_cases (a b : float) :
  (is_num a = true /\ is_num b = true /\
   SFcompare (Prim2SF a) (Prim2SF b) = Some (key_cmp (fkey a) (fkey b)))
  \/ ((is_num a = false \/ is_num b = false) /\
      SFcompare (Prim2SF a) (Prim2SF b) = None).
Proof.
  destruct (is_num a) eqn:Ha, (is_num b) eqn:Hb.
  - left. repeat split.
    apply SFcompare_key; apply is_num_spec; assumption.
  - right. split; [ auto | ].
    destruct (SFcompare (Prim2SF a) (Prim2SF b)) as [c|] eqn:E; [ | reflexivity ].
    apply SFcompare_some_num in E. destruct E as [_ E].
    apply is_num_spec in E. congruence.
  - right. split; [ auto | ].
    destruct (SFcompare (Prim2SF a) (Prim2SF b)) as [c|] eqn:E; [ | reflexivity ].
    apply SFcompare_some_num in E. destruct E as [E _].
    apply is_num_spec in E. congruence.
  - right. split; [ auto | ].
    destruct (SFcompare (Prim2SF a) (Prim2SF b)) as [c|] eqn:E; [ | reflexivity ].
    apply SFcompare_some_num in E. destruct E as [E _].
    apply is_num_spec in E. congruence.
Qed.

Lemma ltb_key (a b : float) :
  (a <? b) = true <->
  is_num a = true /\ is_num b = true /\ key_cmp (fkey a) (fkey b) = Lt.
Proof.
  rewrite ltb_spec. unfold SFltb.
  destruct (compare_cases a b) as [(Ha & Hb & E) | ([H | H] & E)]; rewrite E.
  - destruct (key_cmp (fkey a) (fkey b)); split; intros; try discriminate;
      intuition congruence.
  - split; [ discriminate | intros (? & ? & _); congruence ].
  - split; [ discriminate | intros (? & ? & _); congruence ].
Qed.

Lemma leb_key (a b : float) :
  (a <=? b) = true <->
  is_num a = true /\ is_num b = true /\ key_cmp (fkey a) (fkey b) <> Gt.
Proof.
  rewrite leb_spec. unfold SFleb.
  destruct (compare_cases a b) as [(Ha & Hb & E) | ([H | H] & E)]; rewrite E.
  - destruct (key_cmp (fkey a) (fkey b)); split; intros; try discriminate;
      intuition congruence.
  - split; [ discriminate | intros (? & ? & _); congruence ].
  - split; [ discriminate | intros (? & ? & _); congruence ].
Qed.

Lemma key_cmp_antisym (k1 k2 : Z * Z * Z) :
  key_cmp k2 k1 = CompOpp (key_cmp k1 k2).
Proof.
  destruct k1 as [[a1 b1] c1], k2 as [[a2 b2] c2]. unfold key_cmp.
  rewrite (Z.compare_antisym a1 a2), (Z.compare_antisym b1 b2),
    (Z.compare_antisym c1 c2).
  destruct (a1 ?= a2)%Z, (b1 ?= b2)%Z, (c1 ?= c2)%Z; reflexivity.
Qed.

Lemma ltb_is_num (a b : float) :
  (a <? b) = true -> is_num a = true /\ is_num b = true.
Proof. intros H. apply ltb_key in H. tauto. Qed.

Lemma leb_is_num (a b : float) :
  (a <=? b) = true -> is_num a = true /\ is_num b = true.
Proof. intros H. apply leb_key in H. tauto. Qed.

Lemma leb_refl (a : float) : is_num a = true -> (a <=? a) = true.
Proof.
  intros H. apply leb_key. repeat split; try assumption.
  destruct (fkey a) as [[x y] z]. unfold key_cmp.
  rewrite !Z.compare_refl. discriminate.
Qed.

Lemma ltb_leb (a b : float) : (a <? b) = true -> (a <=? b) = true.
Proof.
  intros H. apply ltb_key in H. destruct H as (Ha & Hb & H).
  apply leb_key. repeat split; try assumption. congruence.
Qed.

(** On numbers the order is total: not [a < b] gives [b <= a]. *)
Lemma ltb_false_leb (a b : float) :
  is_num a = true -> is_num b = true -> (a <? b) = false -> (b <=? a) = true.
Proof.
  intros Ha Hb H. apply leb_key. repeat split; try assumption.
  intros G. rewrite key_cmp_antisym in G.
  assert (L : key_cmp (fkey a) (fkey b) = Lt)
    by (destruct (key_cmp (fkey a) (fkey b)); simpl in G; congruence).
  assert (T : (a <? b) = true) by (apply ltb_key; auto).
  congruence.
Qed.



Lemma leb_trans (a b c : float) :
  (a <=? b) = true -> (b <=? c) = true -> (a <=? c) = true.
Proof.
  intros H1 H2. apply leb_key in H1, H2.
  destruct H1 as (Ha & Hb & H1), H2 as (_ & Hc & H2).
  apply leb_key. repeat split; try assumption.
  exact (key_cmp_le_trans _ _ _ H1 H2).
Qed.

Lemma ltb_leb_trans (a b c : float) :
  (a <? b) = true -> (b <=? c) = true -> (a <? c) = true.
Proof.
  intros H1 H2. apply ltb_key in H1. apply leb_key in H2.
  destruct H1 as (Ha & Hb & H1), H2 as (_ & Hc & H2).
  apply ltb_key. repeat split; try assumption.
  exact (key_cmp_lt_le_trans _ _ _ H1 H2).
Qed.


(** IEEE equality with a strictly positive value is equality of the two
    floats: the only distinct values that compare equal are the two zeros. *)
Lemma eqb_pos_eq (a b : float) :
  (0 <? a) = true -> (b =? a) = true -> b = a.
Proof.
  rewrite ltb_spec, eqb_spec. unfold SFltb, SFeqb.
  change (Prim2SF 0) with (S754_zero false).
  intros Hpos Heq.
  rewrite <- (SF2Prim_Prim2SF a), <- (SF2Prim_Prim2SF b). f_equal.
  destruct (Prim2SF a) as [sa|sa| |sa ma ea], (Prim2SF b) as [sb|sb| |sb mb eb];
    simpl in *; try discriminate;
    try (destruct sa; discriminate);
    try (destruct sa, sb; discriminate || reflexivity);
    try (destruct sb; discriminate).
  destruct sa; [ discriminate | ].
  destruct sb; [ discriminate | ].
  destruct (Z.compare_spec eb ea); try discriminate.
  change (Pos.compare_cont Eq mb ma) with (Pos.compare mb ma) in Heq.
  destruct (Pos.compare_spec mb ma); try discriminate.
  subst. reflexivity.
Qed.

Lemma eqb_refl_pos (a : float) : (0 <? a) = true -> (a =? a) = true.
Proof. intros H. apply ltb_is_num in H. apply H. Qed.


Lemma eqb_key (a b : float) :
  (a =? b) = true <->
  is_num a = true /\ is_num b = true /\ key_cmp (fkey a) (fkey b) = Eq.
Proof.
  rewrite eqb_spec. unfold SFeqb.
  destruct (compare_cases a b) as [(Ha & Hb & E) | ([H | H] & E)]; rewrite E.
  - destruct (key_cmp (fkey a) (fkey b)); split; intros; try discriminate;
      intuition congruence.
  - split; [ discriminate | intros (? & ? & _); congruence ].
  - split; [ discriminate | intros (? & ? & _); congruence ].
Qed.

(** Two strictly positive values that are below each other are the same
    float. *)
Lemma leb_antisym_pos (a b : float) :
  (0 <? a) = true -> (a <=? b) = true -> (b <=? a) = true -> a = b.
Proof.
  intros Hpos H1 H2. symmetry. apply eqb_pos_eq; [ assumption | ].
  apply leb_key in H1, H2.
  destruct H1 as (Ha & Hb & H1), H2 as (_ & _ & H2).
  apply eqb_key. repeat split; try assumption.
  rewrite key_cmp_antisym in H1.
  destruct (key_cmp (fkey b) (fkey a)); simpl in H1; congruence.
Qed.

End F64Facts.

(* ================================================================== *)
(** * Facts on [min], [index] and the two searches *)
(* ================================================================== *)

Import F64Facts.

Section SearchFacts.

Lemma positive_In (a : list float) (v : float) :
  In v (positive a) <-> In v a /\ (0 <? v)%float = true.
Proof. unfold positive. rewrite filter_In. reflexivity. Qed.

(** The loop of [min], started on [x] and run over [r]. *)
Lemma fold_min_spec (r : list float) :
  forall x : float,
    (0 <? x)%float = true ->
    (forall y, In y r -> (0 <? y)%float = true) ->
    let m := fold_left (fun m i => if (i <? m)%float then i else m) r x in
    In m (x :: r) /\ (m <=? x)%float = true /\
    forall y, In y r -> (m <=? y)%float = true.
Proof.
  induction r as [|y r IH]; intros x Hx Hr; cbn zeta.
  - simpl. split; [ left; reflexivity | split ].
    + apply leb_refl. apply (proj2 (ltb_is_num _ _ Hx)).
    + intros y [].
  - cbn [fold_left].
    assert (Hy : (0 <? y)%float = true) by (apply Hr; left; reflexivity).
    assert (Hr' : forall z, In z r -> (0 <? z)%float = true)
      by (intros z Hz; apply Hr; right; exact Hz).
    destruct (y <? x)%float eqn:E.
    + destruct (IH y Hy Hr') as (Hin & Hle & Hall).
      split; [ right; exact Hin | split ].
      * eapply leb_trans; [ exact Hle | apply ltb_leb; exact E ].
      * intros z [<- | Hz]; auto.
    + destruct (IH x Hx Hr') as (Hin & Hle & Hall).
      split; [ | split; [ exact Hle | ] ].
      * destruct Hin as [H | H]; [ left; exact H | right; right; exact H ].
      * intros z [<- | Hz]; auto.
        eapply leb_trans; [ exact Hle | ].
        apply ltb_false_leb; try assumption.
        -- apply (proj2 (ltb_is_num _ _ Hy)).
        -- apply (proj2 (ltb_is_num _ _ Hx)).
Qed.

Lemma py_min_spec (l : list float) :
  (forall y, In y l -> (0 <? y)%float = true) ->
  match py_min l with
  | Ok m => In m l /\ forall y, In y l -> (m <=? y)%float = true
  | Raise e => e = ValueError /\ l = []
  end.
Proof.
  destruct l as [|x r]; intros H; simpl.
  - auto.
  - destruct (fold_min_spec r x) as (Hin & Hle & Hall).
    + apply H; left; reflexivity.
    + intros y Hy; apply H; right; exact Hy.
    + split; [ exact Hin | ].
      intros y [<- | Hy]; auto.
Qed.

Lemma py_index_spec (l : list float) (v : float) :
  (0 <? v)%float = true -> In v l ->
  exists i, py_index l v = Ok i /\ nth_error l i = Some v /\
            forall j, j < i -> nth_error l j <> Some v.
Proof.
  intros Hv. induction l as [|x l IH]; intros Hin; [ destruct Hin | ].
  simpl. destruct (x =? v)%float eqn:E.
  - exists 0. repeat split.
    + simpl. f_equal. apply eqb_pos_eq; assumption.
    + intros j Hj. lia.
  - assert (Hne : x <> v).
    { intros ->. rewrite (eqb_refl_pos _ Hv) in E. discriminate. }
    destruct Hin as [-> | Hin]; [ congruence | ].
    destruct (IH Hin) as (i & Hi & Hnth & Hfirst).
    exists (S i). rewrite Hi. repeat split; [ exact Hnth | ].
    intros [|j] Hj; simpl.
    + congruence.
    + apply Hfirst. lia.
Qed.

Lemma nth_error_slice (lo hi : nat) (l : list float) (k : nat) (v : float) :
  nth_error (slice lo hi l) k = Some v <->
  lo + k < hi /\ nth_error l (lo + k) = Some v.
Proof.
  unfold slice. rewrite nth_error_skipn, nth_error_firstn.
  destruct (Nat.ltb_spec (lo + k) hi); split.
  - auto.
  - tauto.
  - discriminate.
  - intros [? _]. lia.
Qed.

Lemma In_slice (lo hi : nat) (l : list float) (v : float) :
  In v (slice lo hi l) <->
  exists j, lo <= j < hi /\ nth_error l j = Some v.
Proof.
  split.
  - intros H. apply In_nth_error in H. destruct H as [k Hk].
    apply nth_error_slice in Hk. exists (lo + k). split; [ lia | tauto ].
  - intros (j & Hj & Hnth).
    apply nth_error_In with (n := j - lo). apply nth_error_slice.
    replace (lo + (j - lo)) with j by lia. split; [ lia | exact Hnth ].
Qed.

Lemma slice_all (l : list float) : slice 0 (length l) l = l.
Proof. unfold slice. rewrite firstn_all. reflexivity. Qed.

(** What [min(i for i in array[lo:hi] if i > 0.0)] followed by
    [array[lo:hi].index(...)] computes. *)
Lemma slice_search (array : list float) (lo hi : nat) :
  match py_min (positive (slice lo hi array)) with
  | Ok v =>
      min_positive_in array lo hi v /\
      exists i, py_index (slice lo hi array) v = Ok i /\
                first_index_in array lo hi v (lo + i)
  | Raise e => e = ValueError /\ no_positive_in array lo hi
  end.
Proof.
  pose proof (py_min_spec (positive (slice lo hi array))) as H.
  destruct (py_min (positive (slice lo hi array))) as [v | e].
  - destruct H as (Hin & Hmin).
    { intros y Hy. apply positive_In in Hy. tauto. }
    apply positive_In in Hin. destruct Hin as (Hin & Hpos).
    split.
    + split; [ apply In_slice; exact Hin | split; [ exact Hpos | ] ].
      intros j x0 Hj Hnth Hx. apply Hmin. apply positive_In.
      split; [ apply In_slice; eauto | exact Hx ].
    + destruct (py_index_spec (slice lo hi array) v Hpos Hin)
        as (i & Hi & Hnth & Hfirst).
      exists i. split; [ exact Hi | ].
      apply nth_error_slice in Hnth. destruct Hnth as (Hlt & Hnth).
      split; [ lia | split; [ exact Hnth | ] ].
      intros j Hj Hc. apply (Hfirst (j - lo)); [ lia | ].
      apply nth_error_slice.
      replace (lo + (j - lo)) with j by lia. split; [ lia | exact Hc ].
  - destruct H as (-> & Hnil).
    { intros y Hy. apply positive_In in Hy. tauto. }
    split; [ reflexivity | ].
    intros j x0 Hj Hnth. destruct (0 <? x0)%float eqn:E; [ | reflexivity ].
    assert (Hin : In x0 (positive (slice lo hi array))).
    { apply positive_In. split; [ apply In_slice; eauto | exact E ]. }
    rewrite Hnil in Hin. destruct Hin.
Qed.

Lemma min_positive_in_unique (array : list float) (lo hi : nat) (v v' : float) :
  min_positive_in array lo hi v -> min_positive_in array lo hi v' -> v = v'.
Proof.
  intros ((j & Hj & Hnth) & Hpos & Hmin) ((j' & Hj' & Hnth') & Hpos' & Hmin').
  apply leb_antisym_pos; [ exact Hpos | | ].
  - apply (Hmin j'); assumption.
  - apply (Hmin' j); assumption.
Qed.

Lemma min_positive_not_none (array : list float) (lo hi : nat) (v : float) :
  min_positive_in array lo hi v -> no_positive_in array lo hi -> False.
Proof.
  intros ((j & Hj & Hnth) & Hpos & _) Hno.
  rewrite (Hno j v Hj Hnth) in Hpos. discriminate.
Qed.

(** [findObj360] on the whole array. *)
Lemma findObj360_spec (array : list float) :
  match findObj360 array with
  | Ok (i, v) =>
      min_positive_in array 0 (length array) v /\
      first_index_in array 0 (length array) v i
  | Raise e => e = ValueError /\ no_positive_in array 0 (length array)
  end.
Proof.
  unfold findObj360.
  pose proof (slice_search array 0 (length array)) as H.
  rewrite slice_all in H.
  destruct (py_min (positive array)) as [v | e]; simpl.
  - destruct H as (Hmin & i & Hi & Hfirst). rewrite Hi. simpl. auto.
  - exact H.
Qed.

(** [findObjFront]: both half cones are searched before either result is
    used, so an empty half cone raises whatever the other one holds. *)
Lemma findObjFront_spec (array : list float) :
  match findObjFront array with
  | Ok (i, v) =>
      exists t t2,
        min_positive_in array 0 45 t /\ min_positive_in array 315 360 t2 /\
        (((t <=? t2)%float = true /\ v = t /\ first_index_in array 0 45 t i) \/
         ((t <=? t2)%float = false /\ v = t2 /\ first_index_in array 315 360 t2 i))
  | Raise e =>
      e = ValueError /\
      (no_positive_in array 0 45 \/ no_positive_in array 315 360)
  end.
Proof.
  unfold findObjFront.
  pose proof (slice_search array 0 45) as H1.
  pose proof (slice_search array 315 360) as H2.
  destruct (py_min (positive (slice 0 45 array))) as [t | e]; simpl.
  - destruct H1 as (Hmin1 & i1 & Hi1 & Hfirst1).
    destruct (py_min (positive (slice 315 360 array))) as [t2 | e2]; simpl.
    + destruct H2 as (Hmin2 & i2 & Hi2 & Hfirst2).
      destruct (t <=? t2)%float eqn:E.
      * rewrite Hi1. simpl. exists t, t2.
        split; [ exact Hmin1 | split; [ exact Hmin2 | left ] ].
        split; [ exact E | split; [ reflexivity | exact Hfirst1 ] ].
      * rewrite Hi2. simpl. exists t, t2.
        rewrite (Nat.add_comm i2 315).
        split; [ exact Hmin1 | split; [ exact Hmin2 | right ] ].
        split; [ exact E | split; [ reflexivity | exact Hfirst2 ] ].
    + destruct H2 as (-> & Hno). auto.
  - destruct H1 as (-> & Hno). auto.
Qed.

End SearchFacts.

(* ================================================================== *)
(** * Facts on the store and on single steps *)
(* ================================================================== *)

Lemma nth_error_store_set (l : list Action) (r r' : ref) (a b : Action) :
  nth_error l r = Some b ->
  nth_error (store_set l r a) r' = if Nat.eqb r' r then Some a else nth_error l r'.
Proof.
  revert r r'. induction l as [|c l IH]; intros [|r] [|r'] H; simpl in *;
    try discriminate; try reflexivity.
  apply IH. exact H.
Qed.

Lemma length_store_set (l : list Action) (r : ref) (a : Action) :
  length (store_set l r a) = length l.
Proof.
  revert r. induction l as [|c l IH]; intros [|r]; simpl; try reflexivity.
  f_equal. apply IH.
Qed.

Lemma done_set_done (a : Action) : done (set_done a) = true.
Proof. destruct a; reflexivity. Qed.

(** After [self.done = True] the object behind [self] is done, and the
    other objects are what they were. *)
Lemma done_of_marked (self : ref) (a : Action) (w : World) :
  nth_error (objects w) self = Some a ->
  done_of (marked self a w) self = Some true.
Proof.
  intros H. unfold done_of, marked. simpl.
  rewrite (nth_error_store_set _ _ self _ a H), Nat.eqb_refl. simpl.
  rewrite done_set_done. reflexivity.
Qed.

Lemma nth_error_marked (self : ref) (a : Action) (w : World) :
  nth_error (objects w) self = Some a ->
  nth_error (objects (marked self a w)) self = Some (set_done a).
Proof.
  intros H. unfold marked. simpl.
  rewrite (nth_error_store_set _ _ self _ a H), Nat.eqb_refl. reflexivity.
Qed.

Section StepFacts.

Variable rectify_angle_pi : float -> float.
Variable euclidian_distance : float -> float -> float -> float -> float.

Lemma Turn_act_eq (self : ref) (t : Turn) (w : World) (a : float) :
  nth_error (objects w) self = Some (ATurn t) ->
  angle (state w) = Some a ->
  Turn_act self t w =
    if gtb (abs (Turn_target_angle t - a)) 0.02
    then (Ok tt, sent (Turn_command t) w)
    else (Ok tt, marked self (ATurn t) (sent Twist0 w)).
Proof.
  intros Hobj Ha. unfold Turn_act. unfold_m. rewrite Ha.
  destruct (gtb (abs (Turn_target_angle t - a)) 0.02); [ reflexivity | ].
  simpl. rewrite Hobj. reflexivity.
Qed.

Lemma FollowObject_act_eq (self : ref) (f : FollowObject) (w : World)
    (fa a d : float) :
  nth_error (objects w) self = Some (AFollowObject f) ->
  closest_obj_front_ang (state w) = Some fa ->
  angle (state w) = Some a ->
  closest_obj_front_dist (state w) = Some d ->
  let error := abs (FollowObject_target_angle f - a) in
  let cmd := follow_command (FollowObject_lower_bound f) (FollowObject_upper_bound f)
               (FollowObject_angle_err_lim f) (FollowObject_clockwise f) error d in
  FollowObject_act self f w =
    (Ok tt,
     marked self (AFollowObject f)
       (if in_position (FollowObject_lower_bound f) (FollowObject_upper_bound f)
             (FollowObject_angle_err_lim f) error d
        then sent Twist0 (sent cmd w)
        else sent cmd w)).
Proof.
  intros Hobj Hfa Ha Hd. cbn zeta.
  unfold FollowObject_act, in_position. unfold_m. rewrite Hfa, Ha, Hd.
  change (mkTwist _ _) with
    (follow_command (FollowObject_lower_bound f) (FollowObject_upper_bound f)
       (FollowObject_angle_err_lim f) (FollowObject_clockwise f)
       (abs (FollowObject_target_angle f - a)) d).
  destruct ((abs (FollowObject_target_angle f - a) <=? FollowObject_angle_err_lim f)%float
            && ((d <=? FollowObject_upper_bound f)%float
                && geb d (FollowObject_lower_bound f)));
    simpl; rewrite Hobj; reflexivity.
Qed.

Lemma WallFollow_act_eq (self : ref) (f : WallFollow) (w : World)
    (fa a d : float) :
  nth_error (objects w) self = Some (AWallFollow f) ->
  closest_obj_front_ang (state w) = Some fa ->
  angle (state w) = Some a ->
  closest_obj_front_dist (state w) = Some d ->
  let error := abs (WallFollow_target_angle f - a) in
  let cmd := follow_command (WallFollow_lower_bound f) (WallFollow_upper_bound f)
               (WallFollow_angle_err_lim f) (WallFollow_clockwise f) error d in
  WallFollow_act self f w =
    (Ok tt,
     marked self (AWallFollow f)
       (if in_position (WallFollow_lower_bound f) (WallFollow_upper_bound f)
             (WallFollow_angle_err_lim f) error d
        then on_state (set_meter true) (sent Twist0 (sent cmd w))
        else sent cmd w)).
Proof.
  intros Hobj Hfa Ha Hd. cbn zeta.
  unfold WallFollow_act, in_position. unfold_m. rewrite Hfa, Ha, Hd.
  change (mkTwist _ _) with
    (follow_command (WallFollow_lower_bound f) (WallFollow_upper_bound f)
       (WallFollow_angle_err_lim f) (WallFollow_clockwise f)
       (abs (WallFollow_target_angle f - a)) d).
  destruct ((abs (WallFollow_target_angle f - a) <=? WallFollow_angle_err_lim f)%float
            && ((d <=? WallFollow_upper_bound f)%float
                && geb d (WallFollow_lower_bound f)));
    simpl; rewrite Hobj; reflexivity.
Qed.

Lemma Turn_init_eq (delta : float) (w : World) (a : float) :
  angle (state w) = Some a ->
  Turn_init rectify_angle_pi delta w =
    (Ok {| Turn_clockwise := negb (geb delta 0);
           Turn_target_angle := rectify_angle_pi (a + delta);
           Turn_done := false |}, w).
Proof.
  intros Ha. unfold Turn_init. unfold_m. rewrite Ha.
  destruct (geb delta 0); reflexivity.
Qed.

Lemma FollowObject_init_eq (w : World) (fa a : float) :
  closest_obj_front_ang (state w) = Some fa ->
  angle (state w) = Some a ->
  FollowObject_init rectify_angle_pi w =
    (Ok (mkFollowObject 0.4 0.6 0.04 (negb (geb (rectify_angle_pi fa) 0))
           (rectify_angle_pi (a + rectify_angle_pi fa)) false), w).
Proof.
  intros Hfa Ha. unfold FollowObject_init. unfold_m. rewrite Hfa, Ha.
  destruct (geb (rectify_angle_pi fa) 0); reflexivity.
Qed.

Lemma WallFollow_init_eq (w : World) (fa a : float) :
  closest_obj_front_ang (state w) = Some fa ->
  angle (state w) = Some a ->
  WallFollow_init rectify_angle_pi w =
    (Ok (mkWallFollow 0.9 1.1 0.04 (negb (geb (rectify_angle_pi fa) 0))
           (rectify_angle_pi (a + rectify_angle_pi fa)) false), w).
Proof.
  intros Hfa Ha. unfold WallFollow_init. unfold_m. rewrite Hfa, Ha.
  destruct (geb (rectify_angle_pi fa) 0); reflexivity.
Qed.

Lemma TurnToObject_act_eq (self : ref) (o : TurnToObject) (w : World)
    (ca fa a : float) :
  nth_error (objects w) self = Some (ATurnToObject o) ->
  closest_obj_ang (state w) = Some ca ->
  closest_obj_front_ang (state w) = Some fa ->
  angle (state w) = Some a ->
  let goal := rectify_angle_pi ca in
  let t := {| Turn_clockwise := negb (geb goal 0);
              Turn_target_angle := rectify_angle_pi (a + goal);
              Turn_done := false |} in
  TurnToObject_act rectify_angle_pi self o w =
    (Ok tt,
     marked self (ATurnToObject o)
       (on_state (set_current_action (length (objects w)))
          (stored (ATurn t) w))).
Proof.
  intros Hobj Hca Hfa Ha. cbn zeta. unfold TurnToObject_act.
  unfold bind at 1. unfold attr at 1. rewrite Hca.
  unfold bind at 1. unfold attr at 1. rewrite Hfa.
  unfold bind at 1. rewrite (Turn_init_eq _ w a Ha).
  unfold_m. simpl.
  rewrite nth_error_app1 by (apply nth_error_Some; congruence).
  rewrite Hobj. reflexivity.
Qed.

End StepFacts.

(* ================================================================== *)
(** * An invariant of every run *)
(* ================================================================== *)

Lemma object_ok_same (s s' : TurtlebotState) (a : Action) :
  same_sensed s s' -> object_ok s a -> object_ok s' a.
Proof.
  intros (Ha & Hf & _). destruct a; simpl; rewrite ?Ha, ?Hf; auto.
Qed.

Lemma object_ok_grows (s s' : TurtlebotState) (a : Action) :
  (angle s <> None -> angle s' <> None) ->
  (closest_obj_front_ang s <> None -> closest_obj_front_ang s' <> None) ->
  object_ok s a -> object_ok s' a.
Proof.
  intros Ha Hf. destruct a; simpl; intuition.
Qed.

Lemma object_ok_set_done (s : TurtlebotState) (a : Action) :
  object_ok s a -> object_ok s (set_done a).
Proof. destruct a; simpl; auto. Qed.

Section Invariant.

Variable rectify_angle_pi : float -> float.
Variable degrees_to_radians : nat -> float.
Variable euclidian_distance : float -> float -> float -> float -> float.
Variable euler_from_quaternion :
  float * float * float * float -> float * float * float.

Lemma invariant_init : invariant World_init.
Proof.
  split.
  - simpl. congruence.
  - intros [|r] a H; discriminate H.
Qed.

Lemma invariant_update_odom (msg : Odometry) (w : World) :
  invariant w -> invariant (snd (update_odom euler_from_quaternion msg w)).
Proof.
  intros (Hfront & Hobjs). split.
  - exact Hfront.
  - intros r a H. apply (object_ok_grows (state w)).
    + simpl. congruence.
    + auto.
    + apply (Hobjs r). exact H.
Qed.

(** [update_scan], branch by branch. *)
Lemma update_scan_eq (msg : LaserScan) (w : World) :
  update_scan degrees_to_radians msg w =
    match findObj360 (ranges msg) with
    | Raise e => (Raise e, w)
    | Ok r =>
        let w1 := on_state (set_closest_obj_ang (degrees_to_radians (fst r))) w in
        match findObjFront (ranges msg) with
        | Raise e => (Raise e, w1)
        | Ok f =>
            (Ok tt,
             on_state (set_ready true)
               (on_state (set_closest_obj_front_dist (snd f))
                  (on_state (set_closest_obj_front_ang (degrees_to_radians (fst f)))
                     (on_state (set_closest_obj_front f) w1))))
        end
    end.
Proof.
  unfold update_scan. unfold_m.
  destruct (findObj360 (ranges msg)); [ | reflexivity ].
  destruct (findObjFront (ranges msg)); reflexivity.
Qed.

Lemma invariant_update_scan (msg : LaserScan) (w : World) :
  invariant w -> invariant (snd (update_scan degrees_to_radians msg w)).
Proof.
  intros (Hfront & Hobjs). rewrite update_scan_eq.
  destruct (findObj360 (ranges msg)) as [r | e]; [ | split; assumption ].
  cbn zeta. destruct (findObjFront (ranges msg)) as [f | e]; simpl.
  - split.
    + simpl. congruence.
    + intros r' a H. apply (object_ok_grows (state w)).
      * auto.
      * simpl. congruence.
      * apply (Hobjs r'). exact H.
  - split.
    + exact Hfront.
    + intros r' a H. apply (object_ok_grows (state w)); auto.
      apply (Hobjs r'). exact H.
Qed.

(** A constructor reads the state and changes nothing; what it builds is
    consistent with the state it read. *)
Lemma construct_spec (c : constructor) (w : World) :
  match construct rectify_angle_pi c w with
  | (Ok a, w') => w' = w /\ object_ok (state w) a
  | (Raise _, w') => w' = w
  end.
Proof.
  destruct c; unfold construct, new_Turn, new_Drive, new_TurnToObject,
    new_FollowObject, new_WallFollow, Turn_init, Drive_init, TurnToObject_init,
    FollowObject_init, WallFollow_init;
    step_m tt; repeat split; congruence.
Qed.

Lemma invariant_install (c : constructor) (w : World) :
  invariant w -> invariant (snd (install (construct rectify_angle_pi c) w)).
Proof.
  intros (Hfront & Hobjs). unfold install. unfold bind at 1.
  pose proof (construct_spec c w) as H.
  destruct (construct rectify_angle_pi c w) as [[a | e] w'].
  - destruct H as (-> & Hok). unfold_m. simpl. split.
    + exact Hfront.
    + intros r b Hb. simpl in Hb.
      apply (object_ok_grows (state w)); [ auto | auto | ].
      destruct (Nat.lt_ge_cases r (length (objects w))) as [Hlt | Hge].
      * rewrite nth_error_app1 in Hb by exact Hlt. apply (Hobjs r). exact Hb.
      * rewrite nth_error_app2 in Hb by exact Hge.
        destruct (r - length (objects w)) as [|k]; simpl in Hb.
        -- injection Hb as <-. exact Hok.
        -- destruct k; discriminate Hb.
  - subst w'. simpl. split; assumption.
Qed.

(** One call of [act] leaves the sensed attributes alone, and changes the
    store in one of three ways. *)
Lemma act_effect (r : ref) (w : World) :
  let w' := snd (act rectify_angle_pi euclidian_distance r w) in
  same_sensed (state w) (state w') /\ store_step r w w'.
Proof.
  cbn zeta. unfold act. unfold bind, deref. cbn beta.
  destruct (nth_error (objects w) r) as [a|] eqn:Hobj;
    [ | simpl; split; [ repeat split | unfold store_step; left; reflexivity ] ].
  destruct a as [t | d | o | f | f].
  - unfold Turn_act. step_m Hobj;
      (split; [ repeat split | ]);
      (unfold store_step; simpl;
       first [ left; reflexivity
             | right; eexists; split; [ exact Hobj | left; reflexivity ] ]).
  - unfold Drive_act. step_m Hobj;
      (split; [ repeat split | ]);
      (unfold store_step; simpl;
       first [ left; reflexivity
             | right; eexists; split; [ exact Hobj | left; reflexivity ] ]).
  - assert (Hraise :
      closest_obj_ang (state w) = None \/
      closest_obj_front_ang (state w) = None \/ angle (state w) = None ->
      snd (TurnToObject_act rectify_angle_pi r o w) = w).
    { unfold TurnToObject_act, Turn_init. unfold_m.
      destruct (closest_obj_ang (state w)); simpl;
        destruct (closest_obj_front_ang (state w)); simpl;
        destruct (angle (state w)); simpl;
        intros [H | [H | H]]; try discriminate H; reflexivity. }
    destruct (closest_obj_ang (state w)) as [ca|] eqn:Hca;
      [ | rewrite Hraise by auto; split;
          [ repeat split | unfold store_step; left; reflexivity ] ].
    destruct (closest_obj_front_ang (state w)) as [fa|] eqn:Hfa;
      [ | rewrite Hraise by auto; split;
          [ repeat split | unfold store_step; left; reflexivity ] ].
    destruct (angle (state w)) as [a|] eqn:Ha;
      [ | rewrite Hraise by auto; split;
          [ repeat split | unfold store_step; left; reflexivity ] ].
    rewrite (TurnToObject_act_eq rectify_angle_pi r o w ca fa a Hobj Hca Hfa Ha).
    simpl. split; [ repeat split | ].
    right. eexists. split; [ exact Hobj | right ].
    eexists. split; [ congruence | reflexivity ].
  - unfold FollowObject_act. step_m Hobj;
      (split; [ repeat split | ]);
      (unfold store_step; simpl;
       first [ left; reflexivity
             | right; eexists; split; [ exact Hobj | left; reflexivity ] ]).
  - unfold WallFollow_act. step_m Hobj;
      (split; [ repeat split | ]);
      (unfold store_step; simpl;
       first [ left; reflexivity
             | right; eexists; split; [ exact Hobj | left; reflexivity ] ]).
Qed.

Lemma invariant_act (r : ref) (w : World) :
  invariant w ->
  invariant (snd (act rectify_angle_pi euclidian_distance r w)).
Proof.
  intros (Hfront & Hobjs).
  destruct (act_effect r w) as (Hsame & Hstore).
  set (w' := snd (act rectify_angle_pi euclidian_distance r w)) in *.
  split.
  - destruct Hsame as (_ & Hf & Hd). rewrite Hf, Hd. exact Hfront.
  - intros r' b Hb. apply (object_ok_same (state w)); [ exact Hsame | ].
    destruct Hstore as [E | (a & Ha & [E | (t & Hang & E)])]; rewrite E in Hb.
    + apply (Hobjs r'). exact Hb.
    + rewrite (nth_error_store_set _ _ r' _ a Ha) in Hb.
      destruct (Nat.eqb r' r).
      * injection Hb as <-. apply object_ok_set_done. apply (Hobjs r). exact Ha.
      * apply (Hobjs r'). exact Hb.
    + assert (Ha' : nth_error (objects w ++ [ATurn t]) r = Some a).
      { rewrite nth_error_app1; [ exact Ha | ].
        apply nth_error_Some. congruence. }
      rewrite (nth_error_store_set _ _ r' _ a Ha') in Hb.
      destruct (Nat.eqb r' r).
      * injection Hb as <-. apply object_ok_set_done. apply (Hobjs r). exact Ha.
      * destruct (Nat.lt_ge_cases r' (length (objects w))) as [Hlt | Hge].
        -- rewrite nth_error_app1 in Hb by exact Hlt. apply (Hobjs r'). exact Hb.
        -- rewrite nth_error_app2 in Hb by exact Hge.
           destruct (r' - length (objects w)) as [|k]; simpl in Hb.
           ++ injection Hb as <-. exact Hang.
           ++ destruct k; discriminate Hb.
Qed.

Lemma invariant_handle (e : event) (w : World) :
  invariant w ->
  invariant
    (snd (handle rectify_angle_pi degrees_to_radians euclidian_distance
            euler_from_quaternion e w)).
Proof.
  destruct e; simpl.
  - apply invariant_update_odom.
  - apply invariant_update_scan.
  - apply invariant_install.
  - apply invariant_act.
Qed.

Lemma invariant_run (es : list event) (w : World) :
  invariant w ->
  invariant
    (run rectify_angle_pi degrees_to_radians euclidian_distance
       euler_from_quaternion es w).
Proof.
  revert w. induction es as [|e es IH]; intros w H; simpl.
  - exact H.
  - apply IH. apply invariant_handle. exact H.
Qed.

Lemma invariant_reachable (w : World) :
  reachable rectify_angle_pi degrees_to_radians euclidian_distance
    euler_from_quaternion w ->
  invariant w.
Proof.
  intros (es & ->). apply invariant_run. exact invariant_init.
Qed.

End Invariant.

(* ================================================================== *)
(** * The properties of the specification *)
(* ================================================================== *)

(** The full sweep: [findObj360] returns the least strictly positive
    reading of the array with the first index at which it is read, and
    raises [ValueError] exactly when no reading is strictly positive. *)
Theorem findObj360_nearest (array : list float) :
  (forall i v,
      findObj360 array = Ok (i, v) ->
      min_positive_in array 0 (length array) v /\
      first_index_in array 0 (length array) v i) /\
  ((exists j x, nth_error array j = Some x /\ (0 <? x)%float = true) ->
   exists i v, findObj360 array = Ok (i, v)) /\
  (findObj360 array = Raise ValueError <-> no_positive_in array 0 (length array)).
Proof.
  pose proof (findObj360_spec array) as H.
  destruct (findObj360 array) as [[i v] | e].
  - split; [ | split ].
    + intros i' v' E. injection E as <- <-. exact H.
    + intros _. exists i, v. reflexivity.
    + split; [ discriminate | ].
      intros Hno. destruct H as (Hmin & _).
      destruct (min_positive_not_none _ _ _ _ Hmin Hno).
  - destruct H as (-> & Hno). split; [ | split ].
    + discriminate.
    + intros (j & x0 & Hnth & Hpos). exfalso.
      assert (Hlen : j < length array) by (apply nth_error_Some; congruence).
      rewrite (Hno j x0 (conj (Nat.le_0_l j) Hlen) Hnth) in Hpos. discriminate.
    + split; [ intros _; exact Hno | reflexivity ].
Qed.

(** The forward cone: [findObjFront] raises [ValueError] exactly when one of
    the two half cones has no strictly positive reading; otherwise it
    returns a reading of the cone that is strictly positive and below every
    strictly positive reading of the cone, with an index at which it is
    read. *)
Theorem findObjFront_nearest (array : list float) :
  (findObjFront array = Raise ValueError <->
   no_positive_in array 0 45 \/ no_positive_in array 315 360) /\
  (forall i v,
      findObjFront array = Ok (i, v) ->
      (i < 45 \/ 315 <= i < 360) /\
      nth_error array i = Some v /\
      (0 <? v)%float = true /\
      forall j x, j < 45 \/ 315 <= j < 360 ->
                  nth_error array j = Some x ->
                  (0 <? x)%float = true -> (v <=? x)%float = true).
Proof.
  pose proof (findObjFront_spec array) as H.
  destruct (findObjFront array) as [[i v] | e].
  - destruct H as (t & t2 & Ht & Ht2 & Hcase). split.
    + split; [ discriminate | ].
      intros [Hno | Hno];
        [ destruct (min_positive_not_none _ _ _ _ Ht Hno)
        | destruct (min_positive_not_none _ _ _ _ Ht2 Hno) ].
    + intros i' v' E. injection E as <- <-.
      destruct Ht as (_ & Hpos & Hmin), Ht2 as (_ & Hpos2 & Hmin2).
      destruct Hcase as [(Hle & -> & (Hi & Hnth & _)) | (Hle & -> & (Hi & Hnth & _))].
      * split; [ left; lia | split; [ exact Hnth | split; [ exact Hpos | ] ] ].
        intros j x0 [Hj | Hj] Hx Hx0.
        -- apply (Hmin j); [ lia | exact Hx | exact Hx0 ].
        -- eapply leb_trans; [ exact Hle | ].
           apply (Hmin2 j); [ lia | exact Hx | exact Hx0 ].
      * split; [ right; lia | split; [ exact Hnth | split; [ exact Hpos2 | ] ] ].
        assert (Hle' : (t2 <=? t)%float = true).
        { destruct (t2 <? t)%float eqn:E.
          - apply ltb_leb. exact E.
          - rewrite (ltb_false_leb t2 t (proj2 (ltb_is_num _ _ Hpos2))
                       (proj2 (ltb_is_num _ _ Hpos)) E) in Hle.
            discriminate. }
        intros j x0 [Hj | Hj] Hx Hx0.
        -- eapply leb_trans; [ exact Hle' | ].
           apply (Hmin j); [ lia | exact Hx | exact Hx0 ].
        -- apply (Hmin2 j); [ lia | exact Hx | exact Hx0 ].
  - destruct H as (-> & Hno). split.
    + split; [ intros _; exact Hno | reflexivity ].
    + discriminate.
Qed.

Section Properties.

Variable rectify_angle_pi : float -> float.
Variable degrees_to_radians : nat -> float.
Variable euclidian_distance : float -> float -> float -> float -> float.
Variable euler_from_quaternion :
  float * float * float * float -> float * float * float.

(** Calling [act] on a reference runs the method of the object behind it. *)
Lemma act_on_object (self : ref) (w : World) (a : Action) :
  nth_error (objects w) self = Some a ->
  act rectify_angle_pi euclidian_distance self w =
    match a with
    | ATurn t => Turn_act self t w
    | ADrive d => Drive_act euclidian_distance self d w
    | ATurnToObject o => TurnToObject_act rectify_angle_pi self o w
    | AFollowObject f => FollowObject_act self f w
    | AWallFollow f => WallFollow_act self f w
    end.
Proof.
  intros H. unfold act, bind, deref. rewrite H. destruct a; reflexivity.
Qed.

Local Abbreviation act := (act rectify_angle_pi euclidian_distance).
Local Abbreviation reachable :=
  (reachable rectify_angle_pi degrees_to_radians euclidian_distance
     euler_from_quaternion).
Local Abbreviation handle :=
  (handle rectify_angle_pi degrees_to_radians euclidian_distance
     euler_from_quaternion).

Lemma run_snoc (es : list event) (e : event) (w : World) :
  run rectify_angle_pi degrees_to_radians euclidian_distance
    euler_from_quaternion (es ++ [e]) w
  = snd (handle e
           (run rectify_angle_pi degrees_to_radians euclidian_distance
              euler_from_quaternion es w)).
Proof. unfold run. rewrite fold_left_app. reflexivity. Qed.

Lemma reachable_handle (e : event) (w : World) :
  reachable w -> reachable (snd (handle e w)).
Proof.
  intros (es & ->). exists (es ++ [e]). rewrite run_snoc. reflexivity.
Qed.

(** The flag [Turn.__init__] stores, for every delta:
    [clockwise = not (delta >= 0)]. *)
Theorem Turn_init_clockwise (delta : float) (w w' : World) (t : Turn) :
  Turn_init rectify_angle_pi delta w = (Ok t, w') ->
  Turn_clockwise t = negb (geb delta 0).
Proof.
  unfold Turn_init. unfold_m.
  destruct (angle (state w)) as [a|]; [ | discriminate ].
  intros H. injection H as <- _. destruct (geb delta 0); reflexivity.
Qed.



(** C5.  The error of a [Turn] step is not wrapped through the +-pi
    boundary: there are a heading and a target angle, both in (-pi, pi] and
    at most 0.02 rad apart the short way round, for which the step finds an
    error above 0.02, stays not done and commands a rotation. *)
Theorem Turn_act_error_not_wrapped :
  exists h t : float,
    in_half_open_pi h = true /\ in_half_open_pi t = true /\
    (wrapped_distance t h <=? 0.02)%float = true /\
    gtb (abs (t - h)) 0.02 = true /\
    forall (cw : bool) (self : ref) (w : World),
      nth_error (objects w) self = Some (ATurn (mkTurn cw t false)) ->
      angle (state w) = Some h ->
      exists w',
        act self w = (Ok tt, w') /\
        done_of w' self = Some false /\
        published w' =
          published w ++
            [{| linear_x := 0; angular_z := if cw then -0.2 else 0.2 |}].
Proof.
  exists 3.14%float, (-3.14)%float.
  split; [ reflexivity | split; [ reflexivity | split; [ reflexivity | ] ] ].
  split; [ reflexivity | ].
  intros cw self w Hobj Ha.
  assert (Hact : act self w = Turn_act self (mkTurn cw (-3.14) false) w)
    by exact (act_on_object self w _ Hobj).
  rewrite Hact, (Turn_act_eq self _ w _ Hobj Ha). simpl.
  change (gtb (abs (-3.14 - 3.14)) 0.02) with true. cbv iota.
  eexists. split; [ reflexivity | split; [ | reflexivity ] ].
  unfold done_of. simpl. rewrite Hobj. reflexivity.
Qed.

(** What the invariant gives for the object behind a reference. *)
Lemma reachable_FollowObject (w : World) (self : ref) (f : FollowObject) :
  reachable w ->
  nth_error (objects w) self = Some (AFollowObject f) ->
  exists fa a d,
    closest_obj_front_ang (state w) = Some fa /\
    angle (state w) = Some a /\
    closest_obj_front_dist (state w) = Some d /\
    FollowObject_lower_bound f = 0.4%float /\
    FollowObject_upper_bound f = 0.6%float /\
    FollowObject_angle_err_lim f = 0.04%float.
Proof.
  intros Hreach Hobj.
  destruct (invariant_reachable _ _ _ _ w Hreach) as (Hfront & Hobjs).
  destruct (Hobjs self _ Hobj) as (Ha & Hfa & Hl & Hu & He).
  specialize (Hfront Hfa).
  destruct (closest_obj_front_ang (state w)) as [fa|]; [ | congruence ].
  destruct (angle (state w)) as [a|]; [ | congruence ].
  destruct (closest_obj_front_dist (state w)) as [d|]; [ | congruence ].
  exists fa, a, d. repeat split; assumption.
Qed.

Lemma reachable_WallFollow (w : World) (self : ref) (f : WallFollow) :
  reachable w ->
  nth_error (objects w) self = Some (AWallFollow f) ->
  exists fa a d,
    closest_obj_front_ang (state w) = Some fa /\
    angle (state w) = Some a /\
    closest_obj_front_dist (state w) = Some d /\
    WallFollow_lower_bound f = 0.9%float /\
    WallFollow_upper_bound f = 1.1%float /\
    WallFollow_angle_err_lim f = 0.04%float.
Proof.
  intros Hreach Hobj.
  destruct (invariant_reachable _ _ _ _ w Hreach) as (Hfront & Hobjs).
  destruct (Hobjs self _ Hobj) as (Ha & Hfa & Hl & Hu & He).
  specialize (Hfront Hfa).
  destruct (closest_obj_front_ang (state w)) as [fa|]; [ | congruence ].
  destruct (angle (state w)) as [a|]; [ | congruence ].
  destruct (closest_obj_front_dist (state w)) as [d|]; [ | congruence ].
  exists fa, a, d. repeat split; assumption.
Qed.

(** C6.  In every world a run can reach, every call of [act] on a
    [FollowObject] returns normally and leaves it done, whatever the angular
    error and the distance to the object ahead are. *)
Theorem FollowObject_act_always_done (w : World) (self : ref) (f : FollowObject) :
  reachable w ->
  nth_error (objects w) self = Some (AFollowObject f) ->
  exists w', act self w = (Ok tt, w') /\ done_of w' self = Some true.
Proof.
  intros Hreach Hobj.
  destruct (reachable_FollowObject w self f Hreach Hobj)
    as (fa & a & d & Hfa & Ha & Hd & _).
  assert (Hact : act self w = FollowObject_act self f w)
    by exact (act_on_object self w _ Hobj).
  rewrite Hact, (FollowObject_act_eq self f w fa a d Hobj Hfa Ha Hd).
  eexists. split; [ reflexivity | ].
  apply done_of_marked.
  destruct (in_position _ _ _ _ _); exact Hobj.
Qed.

(** C7.  In every world a run can reach, one step of a [WallFollow] leaves
    [meter] true when, in that step, the angular error is at most 0.04 and
    the distance to the object ahead lies in [0.9, 1.1]; in every other case
    [meter] keeps the value it had. *)
Theorem WallFollow_act_meter (w : World) (self : ref) (f : WallFollow) :
  reachable w ->
  nth_error (objects w) self = Some (AWallFollow f) ->
  exists a d w',
    angle (state w) = Some a /\
    closest_obj_front_dist (state w) = Some d /\
    act self w = (Ok tt, w') /\
    meter (state w') =
      if ((abs (WallFollow_target_angle f - a) <=? 0.04)%float
          && ((d <=? 1.1)%float && (0.9 <=? d)%float))
      then true
      else meter (state w).
Proof.
  intros Hreach Hobj.
  destruct (reachable_WallFollow w self f Hreach Hobj)
    as (fa & a & d & Hfa & Ha & Hd & Hl & Hu & He).
  assert (Hact : act self w = WallFollow_act self f w)
    by exact (act_on_object self w _ Hobj).
  exists a, d. eexists.
  split; [ exact Ha | split; [ exact Hd | ] ].
  rewrite Hact, (WallFollow_act_eq self f w fa a d Hobj Hfa Ha Hd).
  split; [ reflexivity | ].
  unfold in_position, geb. rewrite Hl, Hu, He.
  destruct ((abs (WallFollow_target_angle f - a) <=? 0.04)%float
            && ((d <=? 1.1)%float && (0.9 <=? d)%float)); reflexivity.
Qed.

(** C8, as amended.  Only [TurnToObject.act] assigns [current_action]: it
    installs a new [Turn], not yet done, when it returns normally.  A step
    of any other behaviour, and a step of [TurnToObject] that raises, leave
    the reference as it was; [FollowObject] and [WallFollow] never re-arm
    themselves, it is [main] that assigns a new [WallFollow]. *)
Theorem act_current_action (self : ref) (w : World) (a : Action) :
  nth_error (objects w) self = Some a ->
  (kind_of a <> KTurnToObject ->
   current_action (state (snd (act self w))) = current_action (state w)) /\
  (kind_of a = KTurnToObject ->
   match act self w with
   | (Ok _, w') =>
       current_action (state w') = Some (length (objects w)) /\
       kind_at w' (length (objects w)) = Some KTurn /\
       done_of w' (length (objects w)) = Some false /\
       done_of w' self = Some true
   | (Raise _, w') => w' = w
   end).
Proof.
  intros Hobj. rewrite (act_on_object self w a Hobj). split.
  - intros Hkind. destruct a as [t | d | o | f | f];
      [ unfold Turn_act | unfold Drive_act | exfalso; apply Hkind; reflexivity
      | unfold FollowObject_act | unfold WallFollow_act ];
      try (step_m Hobj; reflexivity).
  - intros Hkind. destruct a as [t | d | o | f | f]; try discriminate Hkind.
    destruct (closest_obj_ang (state w)) as [ca|] eqn:Hca;
      [ | unfold TurnToObject_act; unfold_m; rewrite Hca; reflexivity ].
    destruct (closest_obj_front_ang (state w)) as [fa|] eqn:Hfa;
      [ | unfold TurnToObject_act; unfold_m; rewrite Hca, Hfa; reflexivity ].
    destruct (angle (state w)) as [h|] eqn:Ha;
      [ | unfold TurnToObject_act, Turn_init; unfold_m;
          rewrite Hca, Hfa; simpl; rewrite Ha; reflexivity ].
    rewrite (TurnToObject_act_eq rectify_angle_pi self o w ca fa h Hobj Hca Hfa Ha).
    assert (Hlt : self < length (objects w))
      by (apply nth_error_Some; congruence).
    set (t := mkTurn (negb (geb (rectify_angle_pi ca) 0))
                (rectify_angle_pi (h + rectify_angle_pi ca)) false).
    assert (Hobj' : nth_error (objects w ++ [ATurn t]) self = Some (ATurnToObject o)).
    { rewrite nth_error_app1 by exact Hlt. exact Hobj. }
    split; [ reflexivity | ].
    unfold kind_at, done_of, marked. simpl.
    rewrite !(nth_error_store_set _ _ _ _ _ Hobj').
    rewrite Nat.eqb_refl.
    replace (Nat.eqb (length (objects w)) self) with false
      by (symmetry; apply Nat.eqb_neq; lia).
    rewrite nth_error_app2 by lia. rewrite Nat.sub_diag. simpl.
    repeat split; reflexivity.
Qed.

(** C9.  A scan with a strictly positive reading among the indices 0..359
    and none among 0..44: the handler assigns the bearing of the nearest
    object of the full sweep and then ends with the [ValueError] of the
    forward search; the forward bearing, the forward distance and [ready]
    are what they were before. *)
Theorem update_scan_not_atomic (msg : LaserScan) (w : World) :
  (exists j x, j < 360 /\ nth_error (ranges msg) j = Some x /\
               (0 <? x)%float = true) ->
  no_positive_in (ranges msg) 0 45 ->
  exists i v,
    findObj360 (ranges msg) = Ok (i, v) /\
    update_scan degrees_to_radians msg w =
      (Raise ValueError,
       on_state (set_closest_obj_ang (degrees_to_radians i)) w) /\
    let w' := snd (update_scan degrees_to_radians msg w) in
    closest_obj_ang (state w') = Some (degrees_to_radians i) /\
    closest_obj_front (state w') = closest_obj_front (state w) /\
    closest_obj_front_ang (state w') = closest_obj_front_ang (state w) /\
    closest_obj_front_dist (state w') = closest_obj_front_dist (state w) /\
    ready (state w') = ready (state w).
Proof.
  intros (j & x0 & Hj & Hnth & Hpos) Hno.
  pose proof (findObj360_spec (ranges msg)) as H360.
  pose proof (findObjFront_spec (ranges msg)) as Hfront.
  rewrite update_scan_eq.
  destruct (findObj360 (ranges msg)) as [[i v] | e].
  - exists i, v. split; [ reflexivity | ].
    destruct (findObjFront (ranges msg)) as [[i' v'] | e'].
    + destruct Hfront as (t & t2 & Hmin & _).
      destruct (min_positive_not_none _ _ _ _ Hmin Hno).
    + destruct Hfront as (-> & _). simpl. repeat split; reflexivity.
  - destruct H360 as (_ & Hnone). exfalso.
    assert (Hlen : j < length (ranges msg))
      by (apply nth_error_Some; congruence).
    rewrite (Hnone j x0 (conj (Nat.le_0_l j) Hlen) Hnth) in Hpos.
    discriminate.
Qed.

(** C10.  When the least strictly positive reading of [0, 45) and that of
    [315, 360) are the same value, [findObjFront] returns an index of
    [0, 45); and the index it returns is always the first one, within the
    half cone it comes from, at which the returned value is read. *)
Theorem findObjFront_tie_first_index (array : list float) :
  (forall v,
      min_positive_in array 0 45 v -> min_positive_in array 315 360 v ->
      exists i, findObjFront array = Ok (i, v) /\ first_index_in array 0 45 v i) /\
  (forall i v,
      findObjFront array = Ok (i, v) ->
      (min_positive_in array 0 45 v /\ first_index_in array 0 45 v i) \/
      (min_positive_in array 315 360 v /\ first_index_in array 315 360 v i)).
Proof.
  pose proof (findObjFront_spec array) as H. split.
  - intros v H1 H2.
    destruct (findObjFront array) as [[i v'] | e].
    + destruct H as (t & t2 & Ht & Ht2 & Hcase).
      rewrite <- (min_positive_in_unique _ _ _ _ _ H1 Ht) in *.
      rewrite <- (min_positive_in_unique _ _ _ _ _ H2 Ht2) in *.
      destruct Hcase as [(_ & -> & Hfirst) | (Hle & _)].
      * exists i. split; [ reflexivity | exact Hfirst ].
      * destruct H1 as (_ & Hpos & _).
        rewrite (leb_refl v (proj2 (ltb_is_num _ _ Hpos))) in Hle.
        discriminate.
    + destruct H as (_ & [Hno | Hno]).
      * destruct (min_positive_not_none _ _ _ _ H1 Hno).
      * destruct (min_positive_not_none _ _ _ _ H2 Hno).
  - intros i v E. rewrite E in H.
    destruct H as (t & t2 & Ht & Ht2 & [(_ & -> & Hfirst) | (_ & -> & Hfirst)]);
      [ left | right ]; split; assumption.
Qed.

(** The loop of lines 338-344, from a world a run can reach in which
    [FollowObject(state)] can be constructed: the first pass steps the
    [FollowObject], which is then done; the second pass publishes nothing and
    assigns a new [WallFollow], not yet done, to [current_action]. *)
Theorem follow_object_loop_hands_over (w w1 : World) :
  reachable w ->
  install (new_FollowObject rectify_angle_pi) w = (Ok tt, w1) ->
  let r := length (objects w) in
  exists w2 w3,
    current_action (state w1) = Some r /\
    kind_at w1 r = Some KFollowObject /\
    done_of w1 r = Some false /\
    pass_follow_object rectify_angle_pi euclidian_distance w1 = (Ok Next, w2) /\
    current_action (state w2) = Some r /\
    done_of w2 r = Some true /\
    pass_follow_object rectify_angle_pi euclidian_distance w2 = (Ok Next, w3) /\
    published w3 = published w2 /\
    current_action (state w3) = Some (S r) /\
    kind_at w3 (S r) = Some KWallFollow /\
    done_of w3 (S r) = Some false.
Proof.
  intros Hreach Hinst r.
  destruct (invariant_reachable _ _ _ _ w Hreach) as (Hfront & _).
  (* the constructor succeeded: the attributes it reads are assigned *)
  unfold install, new_FollowObject in Hinst.
  destruct (closest_obj_front_ang (state w)) as [fa|] eqn:Hfa;
    [ | unfold FollowObject_init in Hinst; revert Hinst; unfold_m;
        rewrite Hfa; discriminate ].
  destruct (angle (state w)) as [a|] eqn:Ha;
    [ | unfold FollowObject_init in Hinst; revert Hinst; unfold_m;
        rewrite Hfa; simpl; rewrite Ha; discriminate ].
  destruct (closest_obj_front_dist (state w)) as [d|] eqn:Hd;
    [ | exfalso; apply Hfront; congruence ].
  set (f := mkFollowObject 0.4 0.6 0.04 (negb (geb (rectify_angle_pi fa) 0))
              (rectify_angle_pi (a + rectify_angle_pi fa)) false) in *.
  revert Hinst. unfold bind at 1. unfold bind at 1.
  rewrite (FollowObject_init_eq rectify_angle_pi w fa a Hfa Ha). fold f.
  unfold_m. intros Hinst. injection Hinst as <-.
  set (w1 := on_state (set_current_action (length (objects w)))
               (stored (AFollowObject f) w)).
  assert (Hobj1 : nth_error (objects w1) r = Some (AFollowObject f)).
  { unfold w1, r. simpl. rewrite nth_error_app2 by lia.
    rewrite Nat.sub_diag. reflexivity. }
  (* first pass *)
  set (cmd := follow_command 0.4 0.6 0.04 (FollowObject_clockwise f)
                (abs (FollowObject_target_angle f - a)) d).
  set (w2 := marked r (AFollowObject f)
               (if in_position 0.4 0.6 0.04 (abs (FollowObject_target_angle f - a)) d
                then sent Twist0 (sent cmd w1) else sent cmd w1)).
  assert (Hpass1 : pass_follow_object rectify_angle_pi euclidian_distance w1
                   = (Ok Next, w2)).
  { unfold pass_follow_object, current. unfold bind at 1. unfold bind at 1.
    unfold get_state. simpl. unfold ret at 1.
    unfold bind at 1. unfold deref. fold r. rewrite Hobj1. simpl.
    unfold bind at 1.
    rewrite (act_on_object r w1 _ Hobj1).
    rewrite (FollowObject_act_eq r f w1 fa a d Hobj1 Hfa Ha Hd).
    reflexivity. }
  assert (Hobj2 : nth_error (objects w2) r = Some (set_done (AFollowObject f))).
  { unfold w2. apply nth_error_marked.
    destruct (in_position _ _ _ _ _); exact Hobj1. }
  assert (Hstate2 : state w2 = state w1).
  { unfold w2, marked. simpl. destruct (in_position _ _ _ _ _); reflexivity. }
  assert (Hlen2 : length (objects w2) = S r).
  { unfold w2, marked. simpl. rewrite length_store_set.
    destruct (in_position _ _ _ _ _); simpl; rewrite length_app; simpl; lia. }
  (* second pass *)
  set (g := mkWallFollow 0.9 1.1 0.04 (negb (geb (rectify_angle_pi fa) 0))
              (rectify_angle_pi (a + rectify_angle_pi fa)) false).
  set (w3 := on_state (set_current_action (length (objects w2)))
               (stored (AWallFollow g) w2)).
  assert (Hpass2 : pass_follow_object rectify_angle_pi euclidian_distance w2
                   = (Ok Next, w3)).
  { unfold pass_follow_object, current. unfold bind at 1. unfold bind at 1.
    unfold get_state. rewrite Hstate2. simpl. unfold ret at 1.
    unfold bind at 1. unfold deref. fold r. rewrite Hobj2. simpl.
    unfold install, new_WallFollow.
    unfold bind at 1. unfold bind at 1. unfold bind at 1.
    rewrite (WallFollow_init_eq rectify_angle_pi w2 fa a)
      by (rewrite Hstate2; assumption).
    reflexivity. }
  exists w2, w3.
  split; [ reflexivity | ].
  split; [ unfold kind_at; rewrite Hobj1; reflexivity | ].
  split; [ unfold done_of; rewrite Hobj1; reflexivity | ].
  split; [ exact Hpass1 | ].
  split; [ rewrite Hstate2; reflexivity | ].
  split; [ unfold done_of; rewrite Hobj2; reflexivity | ].
  split; [ exact Hpass2 | ].
  split; [ reflexivity | ].
  assert (Hobj3 : nth_error (objects w3) (S r) = Some (AWallFollow g)).
  { rewrite <- Hlen2. unfold w3, on_state, stored. cbn [objects].
    rewrite nth_error_app2 by lia.
    rewrite Nat.sub_diag. reflexivity. }
  split; [ rewrite <- Hlen2; reflexivity | ].
  split; [ unfold kind_at; rewrite Hobj3; reflexivity
         | unfold done_of; rewrite Hobj3; reflexivity ].
Qed.

(** One step of a [Drive] that is not done, with
    [error = |target_distance - distance travelled|]: when [error > 0.02] it
    publishes a linear velocity of 0.2 (forward) or -0.2 and no angular
    velocity, and stays not done; otherwise it publishes the zero command
    and becomes done. *)
Theorem Drive_act_tolerance (self : ref) (d : Drive) (w : World)
    (ix iy sx sy : float) :
  nth_error (objects w) self = Some (ADrive d) ->
  Drive_done d = false ->
  Drive_init_x d = Some ix -> Drive_init_y d = Some iy ->
  x (state w) = Some sx -> y (state w) = Some sy ->
  let error := abs (Drive_target_distance d - euclidian_distance ix sx iy sy) in
  exists w',
    act self w = (Ok tt, w') /\
    (gtb error 0.02 = true ->
     published w' =
       published w ++
         [{| linear_x := if Drive_forward d then 0.2 else -0.2;
             angular_z := 0 |}] /\
     done_of w' self = Some false) /\
    (gtb error 0.02 = false ->
     published w' = published w ++ [Twist0] /\
     done_of w' self = Some true).
Proof.
  intros Hobj Hdone Hix Hiy Hsx Hsy error.
  rewrite (act_on_object self w _ Hobj).
  unfold Drive_act. unfold_m. rewrite Hix, Hsx, Hiy, Hsy. cbn beta iota.
  fold error. destruct (gtb error 0.02).
  - eexists. split; [ reflexivity | split; [ | discriminate ] ].
    intros _. split; [ reflexivity | ].
    unfold done_of. simpl. rewrite Hobj. simpl. rewrite Hdone. reflexivity.
  - simpl. rewrite Hobj.
    eexists. split; [ reflexivity | split; [ discriminate | ] ].
    intros _. split; [ reflexivity | ].
    apply (done_of_marked self (ADrive d) (sent Twist0 w)). exact Hobj.
Qed.

(** The combined command of [FollowObject.act], in every world a run can
    reach: an angular velocity of -0.4 (clockwise) or 0.4 while the angular
    error exceeds 0.04, a linear velocity while the distance ahead is
    outside [0.4, 0.6] (0.15 when [distance - 0.5 > 0], -0.15 otherwise),
    both in one message; a zero message follows it when the error is within
    0.04 and the distance within the band. *)
Theorem FollowObject_act_commands (w : World) (self : ref) (f : FollowObject) :
  reachable w ->
  nth_error (objects w) self = Some (AFollowObject f) ->
  exists a d w',
    angle (state w) = Some a /\
    closest_obj_front_dist (state w) = Some d /\
    act self w = (Ok tt, w') /\
    let error := abs (FollowObject_target_angle f - a) in
    let cmd :=
      {| linear_x :=
           (if gtb d 0.6 || (d <? 0.4) then
              if gtb (d - 0.5) 0 then 0.15 else -0.15
            else 0)%float;
         angular_z :=
           (if gtb error 0.04 then
              if FollowObject_clockwise f then -0.4 else 0.4
            else 0)%float |} in
    published w' =
      published w ++
        (if (error <=? 0.04)%float && ((d <=? 0.6)%float && (0.4 <=? d)%float)
         then [cmd; Twist0] else [cmd]).
Proof.
  intros Hreach Hobj.
  destruct (reachable_FollowObject w self f Hreach Hobj)
    as (fa & a & d & Hfa & Ha & Hd & Hl & Hu & He).
  exists a, d. eexists.
  split; [ exact Ha | split; [ exact Hd | ] ].
  rewrite (act_on_object self w _ Hobj).
  rewrite (FollowObject_act_eq self f w fa a d Hobj Hfa Ha Hd).
  split; [ reflexivity | ].
  unfold in_position, follow_command, geb. rewrite Hl, Hu, He. cbn zeta.
  destruct ((abs (FollowObject_target_angle f - a) <=? 0.04)%float
            && ((d <=? 0.6)%float && (0.4 <=? d)%float)); simpl.
  - rewrite <- app_assoc. reflexivity.
  - reflexivity.
Qed.

(** The combined command of [WallFollow.act]: the law of [FollowObject.act]
    with the band [0.9, 1.1]. *)
Theorem WallFollow_act_commands (w : World) (self : ref) (f : WallFollow) :
  reachable w ->
  nth_error (objects w) self = Some (AWallFollow f) ->
  exists a d w',
    angle (state w) = Some a /\
    closest_obj_front_dist (state w) = Some d /\
    act self w = (Ok tt, w') /\
    let error := abs (WallFollow_target_angle f - a) in
    let cmd :=
      {| linear_x :=
           (if gtb d 1.1 || (d <? 0.9) then
              if gtb (d - 0.5) 0 then 0.15 else -0.15
            else 0)%float;
         angular_z :=
           (if gtb error 0.04 then
              if WallFollow_clockwise f then -0.4 else 0.4
            else 0)%float |} in
    published w' =
      published w ++
        (if (error <=? 0.04)%float && ((d <=? 1.1)%float && (0.9 <=? d)%float)
         then [cmd; Twist0] else [cmd]).
Proof.
  intros Hreach Hobj.
  destruct (reachable_WallFollow w self f Hreach Hobj)
    as (fa & a & d & Hfa & Ha & Hd & Hl & Hu & He).
  exists a, d. eexists.
  split; [ exact Ha | split; [ exact Hd | ] ].
  rewrite (act_on_object self w _ Hobj).
  rewrite (WallFollow_act_eq self f w fa a d Hobj Hfa Ha Hd).
  split; [ reflexivity | ].
  unfold in_position, follow_command, geb. rewrite Hl, Hu, He. cbn zeta.
  destruct ((abs (WallFollow_target_angle f - a) <=? 0.04)%float
            && ((d <=? 1.1)%float && (0.9 <=? d)%float)); simpl.
  - rewrite <- app_assoc. reflexivity.
  - reflexivity.
Qed.

End Properties.

(* ================================================================== *)
(** * Further properties of steps, runs and loops *)
(* ================================================================== *)

Lemma set_done_idempotent (a : Action) : set_done (set_done a) = set_done a.
Proof. destruct a; reflexivity. Qed.

Lemma set_done_of_done (a : Action) : done a = true -> set_done a = a.
Proof.
  destruct a as [[] | [] | [] | [] | []]; simpl; intros ->; reflexivity.
Qed.

Section RunProperties.

Variable rectify_angle_pi : float -> float.
Variable degrees_to_radians : nat -> float.
Variable euclidian_distance : float -> float -> float -> float -> float.
Variable euler_from_quaternion :
  float * float * float * float -> float * float * float.

Local Abbreviation reachable :=
  (reachable rectify_angle_pi degrees_to_radians euclidian_distance
     euler_from_quaternion).
Local Abbreviation handle :=
  (handle rectify_angle_pi degrees_to_radians euclidian_distance
     euler_from_quaternion).
Local Abbreviation run :=
  (run rectify_angle_pi degrees_to_radians euclidian_distance
     euler_from_quaternion).

(** [TurnToObject.act] raises, and changes nothing, when an attribute it
    reads is missing. *)
Lemma TurnToObject_act_raises (self : ref) (o : TurnToObject) (w : World) :
  closest_obj_ang (state w) = None \/
  closest_obj_front_ang (state w) = None \/ angle (state w) = None ->
  exists e, TurnToObject_act rectify_angle_pi self o w = (Raise e, w).
Proof.
  unfold TurnToObject_act, Turn_init. unfold_m.
  destruct (closest_obj_ang (state w)); simpl;
    destruct (closest_obj_front_ang (state w)); simpl;
    destruct (angle (state w)); simpl;
    intros [H | [H | H]]; try discriminate H; eexists; reflexivity.
Qed.

(** A step that raises has changed nothing: no command was published, no
    flag set, no object marked done. *)
Theorem act_raise_unchanged (r : ref) (w : World) (e : exn) :
  fst (act rectify_angle_pi euclidian_distance r w) = Raise e ->
  snd (act rectify_angle_pi euclidian_distance r w) = w.
Proof.
  cbn zeta. unfold act, bind, deref. cbn beta.
  destruct (nth_error (objects w) r) as [a|] eqn:Hobj; [ | reflexivity ].
  destruct a as [t | d | o | f | f].
  - unfold Turn_act. step_m Hobj; intros H; try discriminate H; reflexivity.
  - unfold Drive_act. step_m Hobj; intros H; try discriminate H; reflexivity.
  - destruct (closest_obj_ang (state w)) as [ca|] eqn:Hca;
      [ | destruct (TurnToObject_act_raises r o w) as (e' & ->); auto ].
    destruct (closest_obj_front_ang (state w)) as [fa|] eqn:Hfa;
      [ | destruct (TurnToObject_act_raises r o w) as (e' & ->); auto ].
    destruct (angle (state w)) as [a|] eqn:Ha;
      [ | destruct (TurnToObject_act_raises r o w) as (e' & ->); auto ].
    rewrite (TurnToObject_act_eq rectify_angle_pi r o w ca fa a Hobj Hca Hfa Ha).
    discriminate.
  - unfold FollowObject_act. step_m Hobj; intros H; try discriminate H; reflexivity.
  - unfold WallFollow_act. step_m Hobj; intros H; try discriminate H; reflexivity.
Qed.

(** No behaviour assigns a sensed attribute: a step leaves the pose, the
    three scan results and [ready] as they are, and [meter] either as it is
    or true. *)
Theorem act_keeps_readings (r : ref) (w : World) :
  let w' := snd (act rectify_angle_pi euclidian_distance r w) in
  same_readings (state w) (state w') /\
  (meter (state w') = meter (state w) \/ meter (state w') = true).
Proof.
  cbn zeta. unfold act, bind, deref. cbn beta.
  destruct (nth_error (objects w) r) as [a|] eqn:Hobj;
    [ | simpl; split; [ repeat split | left; reflexivity ] ].
  destruct a as [t | d | o | f | f].
  - unfold Turn_act. step_m Hobj; (split; [ repeat split | left; reflexivity ]).
  - unfold Drive_act. step_m Hobj; (split; [ repeat split | left; reflexivity ]).
  - destruct (closest_obj_ang (state w)) as [ca|] eqn:Hca;
      [ | destruct (TurnToObject_act_raises r o w) as (e' & ->); auto;
          simpl; split; [ repeat split | left; reflexivity ] ].
    destruct (closest_obj_front_ang (state w)) as [fa|] eqn:Hfa;
      [ | destruct (TurnToObject_act_raises r o w) as (e' & ->); auto;
          simpl; split; [ repeat split | left; reflexivity ] ].
    destruct (angle (state w)) as [a|] eqn:Ha;
      [ | destruct (TurnToObject_act_raises r o w) as (e' & ->); auto;
          simpl; split; [ repeat split | left; reflexivity ] ].
    rewrite (TurnToObject_act_eq rectify_angle_pi r o w ca fa a Hobj Hca Hfa Ha).
    simpl. split; [ repeat split | left; reflexivity ].
  - unfold FollowObject_act. step_m Hobj; (split; [ repeat split | left; reflexivity ]).
  - unfold WallFollow_act. step_m Hobj;
      (split; [ repeat split | first [ left; reflexivity | right; reflexivity ] ]).
Qed.


(** The callbacks only assign what they sense: neither publishes a command
    nor touches the store, [current_action] or [meter]; the pose callback
    leaves the scan results alone and the scan callback leaves the pose
    alone, also when it raises. *)
Theorem callbacks_assign_only_readings :
  (forall msg w,
      let w' := snd (update_odom euler_from_quaternion msg w) in
      objects w' = objects w /\ published w' = published w /\
      current_action (state w') = current_action (state w) /\
      meter (state w') = meter (state w) /\
      closest_obj_ang (state w') = closest_obj_ang (state w) /\
      closest_obj_front (state w') = closest_obj_front (state w) /\
      closest_obj_front_ang (state w') = closest_obj_front_ang (state w) /\
      closest_obj_front_dist (state w') = closest_obj_front_dist (state w)) /\
  (forall msg w,
      let w' := snd (update_scan degrees_to_radians msg w) in
      objects w' = objects w /\ published w' = published w /\
      current_action (state w') = current_action (state w) /\
      meter (state w') = meter (state w) /\
      angle (state w') = angle (state w) /\
      x (state w') = x (state w) /\ y (state w') = y (state w)).
Proof.
  split; intros msg w; cbn zeta.
  - repeat split.
  - rewrite update_scan_eq.
    destruct (findObj360 (ranges msg)); [ | repeat split ].
    cbn zeta. destruct (findObjFront (ranges msg)); repeat split.
Qed.

(** How one event changes the store: an object is kept as it is or marked
    done, and nothing is removed. *)
Lemma handle_object (e : event) (w : World) (r : ref) (a : Action) :
  nth_error (objects w) r = Some a ->
  nth_error (objects (snd (handle e w))) r = Some a \/
  nth_error (objects (snd (handle e w))) r = Some (set_done a).
Proof.
  intros Hobj. destruct e as [msg | msg | c | r0]; simpl.
  - left. exact Hobj.
  - left.
    destruct (callbacks_assign_only_readings) as (_ & H).
    destruct (H msg w) as (-> & _). exact Hobj.
  - left. unfold install. unfold bind at 1.
    pose proof (construct_spec rectify_angle_pi c w) as H.
    destruct (construct rectify_angle_pi c w) as [[b | e] w'].
    + destruct H as (-> & _). unfold_m. simpl.
      rewrite nth_error_app1 by (apply nth_error_Some; congruence).
      exact Hobj.
    + subst w'. exact Hobj.
  - destruct (act_effect rectify_angle_pi euclidian_distance r0 w) as (_ & Hstep).
    destruct Hstep as [E | (b & Hb & [E | (t & _ & E)])]; rewrite E.
    + left. exact Hobj.
    + rewrite (nth_error_store_set _ _ r _ b Hb).
      destruct (Nat.eqb_spec r r0) as [-> | Hne].
      * right. congruence.
      * left. exact Hobj.
    + assert (Hb' : nth_error (objects w ++ [ATurn t]) r0 = Some b).
      { rewrite nth_error_app1 by (apply nth_error_Some; congruence). exact Hb. }
      rewrite (nth_error_store_set _ _ r _ b Hb').
      destruct (Nat.eqb_spec r r0) as [-> | Hne].
      * right. congruence.
      * left. rewrite nth_error_app1 by (apply nth_error_Some; congruence).
        exact Hobj.
Qed.

(** Through a whole run a behaviour object keeps the parameters it was
    constructed with: it stays behind its reference, unchanged or marked
    done; once done it never changes again. *)
Theorem objects_persist (es : list event) (w : World) (r : ref) (a : Action) :
  nth_error (objects w) r = Some a ->
  (nth_error (objects (run es w)) r = Some a \/
   nth_error (objects (run es w)) r = Some (set_done a)) /\
  (done a = true -> nth_error (objects (run es w)) r = Some a).
Proof.
  revert w a. induction es as [|e es IH]; intros w a Hobj.
  - simpl. auto.
  - assert (Hstep := handle_object e w r a Hobj).
    change (run (e :: es) w) with (run es (snd (handle e w))).
    split.
    + destruct Hstep as [H | H]; destruct (IH _ _ H) as ([H' | H'] & _); auto.
      rewrite set_done_idempotent in H'. auto.
    + intros Hdone. rewrite <- (set_done_of_done a Hdone) in Hstep.
      rewrite (set_done_of_done a Hdone) in Hstep.
      assert (H : nth_error (objects (snd (handle e w))) r = Some a).
      { destruct Hstep as [H | H]; [ exact H | ].
        rewrite (set_done_of_done a Hdone) in H. exact H. }
      apply (IH _ _ H). exact Hdone.
Qed.

(** What one step can do to the state object and to the size of the
    store. *)
Lemma act_state (r : ref) (w : World) :
  let w' := snd (act rectify_angle_pi euclidian_distance r w) in
  (state w' = state w /\ length (objects w') = length (objects w)) \/
  (state w' = set_meter true (state w) /\
   length (objects w') = length (objects w)) \/
  (state w' = set_current_action (length (objects w)) (state w) /\
   length (objects w') = S (length (objects w))).
Proof.
  cbn zeta. unfold act, bind, deref. cbn beta.
  destruct (nth_error (objects w) r) as [a|] eqn:Hobj; [ | left; split; reflexivity ].
  assert (Hlen : forall b, length (store_set (objects w) r b) = length (objects w))
    by (intros b; apply length_store_set).
  destruct a as [t | d | o | f | f].
  - unfold Turn_act. step_m Hobj; left; rewrite ?Hlen; split; reflexivity.
  - unfold Drive_act. step_m Hobj; left; rewrite ?Hlen; split; reflexivity.
  - destruct (closest_obj_ang (state w)) as [ca|] eqn:Hca;
      [ | destruct (TurnToObject_act_raises r o w) as (e' & ->); auto ].
    destruct (closest_obj_front_ang (state w)) as [fa|] eqn:Hfa;
      [ | destruct (TurnToObject_act_raises r o w) as (e' & ->); auto ].
    destruct (angle (state w)) as [a|] eqn:Ha;
      [ | destruct (TurnToObject_act_raises r o w) as (e' & ->); auto ].
    rewrite (TurnToObject_act_eq rectify_angle_pi r o w ca fa a Hobj Hca Hfa Ha).
    right. right. simpl. rewrite length_store_set, length_app. simpl.
    split; [ reflexivity | lia ].
  - unfold FollowObject_act. step_m Hobj; left; rewrite ?Hlen; split; reflexivity.
  - unfold WallFollow_act. step_m Hobj; rewrite ?Hlen;
      first [ left; split; reflexivity | right; left; split; reflexivity ].
Qed.

Lemma never_cleared_refl (s : TurtlebotState) : never_cleared s s.
Proof. unfold never_cleared. tauto. Qed.

Lemma never_cleared_trans (s1 s2 s3 : TurtlebotState) :
  never_cleared s1 s2 -> never_cleared s2 s3 -> never_cleared s1 s3.
Proof. unfold never_cleared. intuition. Qed.

(** What an assignment of [current_action] by [main] does to the state. *)
Lemma install_state (c : constructor) (w : World) :
  let w' := snd (install (construct rectify_angle_pi c) w) in
  w' = w \/
  exists a, w' = on_state (set_current_action (length (objects w))) (stored a w).
Proof.
  cbn zeta. unfold install, bind.
  pose proof (construct_spec rectify_angle_pi c w) as H.
  destruct (construct rectify_angle_pi c w) as [[b | e] w'].
  - destruct H as (-> & _). right. exists b. reflexivity.
  - subst w'. left. reflexivity.
Qed.

Lemma never_cleared_handle (e : event) (w : World) :
  never_cleared (state w) (state (snd (handle e w))).
Proof.
  destruct e as [msg | msg | c | r]; simpl.
  - unfold never_cleared. simpl. repeat split; try tauto; congruence.
  - rewrite update_scan_eq.
    destruct (findObj360 (ranges msg)); [ | apply never_cleared_refl ].
    cbn zeta. destruct (findObjFront (ranges msg));
      unfold never_cleared; simpl; repeat split; try tauto; congruence.
  - destruct (install_state c w) as [-> | (a & ->)].
    + apply never_cleared_refl.
    + unfold never_cleared. simpl. tauto.
  - destruct (act_state r w) as [(-> & _) | [(-> & _) | (-> & _)]].
    + apply never_cleared_refl.
    + unfold never_cleared. simpl. tauto.
    + unfold never_cleared. simpl. tauto.
Qed.

(** Nothing is ever unassigned or reset in a run: once [ready] or [meter]
    is true it stays true, and a pose or a scan result that has been
    assigned stays assigned (stale, if its feed stops). *)
Theorem readings_never_cleared (es : list event) (w : World) :
  never_cleared (state w) (state (run es w)).
Proof.
  revert w. induction es as [|e es IH]; intros w.
  - apply never_cleared_refl.
  - change (run (e :: es) w) with (run es (snd (handle e w))).
    eapply never_cleared_trans; [ apply never_cleared_handle | apply IH ].
Qed.

(** [meter] goes from false to true in one case only: a step of a
    [WallFollow] that finds the robot in position. *)
Theorem meter_set_only_by_WallFollow (e : event) (w : World) :
  meter (state w) = false ->
  meter (state (snd (handle e w))) = true ->
  exists r f a d,
    e = EAct r /\
    nth_error (objects w) r = Some (AWallFollow f) /\
    angle (state w) = Some a /\
    closest_obj_front_dist (state w) = Some d /\
    in_position (WallFollow_lower_bound f) (WallFollow_upper_bound f)
      (WallFollow_angle_err_lim f)
      (abs (WallFollow_target_angle f - a)) d = true.
Proof.
  intros Hm. destruct e as [msg | msg | c | r]; simpl.
  - intros H. congruence.
  - destruct (callbacks_assign_only_readings) as (_ & H).
    destruct (H msg w) as (_ & _ & _ & -> & _). congruence.
  - destruct (install_state c w) as [-> | (a & ->)]; simpl; congruence.
  - unfold act, bind, deref. cbn beta.
    destruct (nth_error (objects w) r) as [a|] eqn:Hobj; [ | simpl; congruence ].
    destruct a as [t | d | o | f | f].
    + unfold Turn_act. step_m Hobj; congruence.
    + unfold Drive_act. step_m Hobj; congruence.
    + destruct (closest_obj_ang (state w)) as [ca|] eqn:Hca;
        [ | destruct (TurnToObject_act_raises r o w) as (e' & ->); auto; simpl; congruence ].
      destruct (closest_obj_front_ang (state w)) as [fa|] eqn:Hfa;
        [ | destruct (TurnToObject_act_raises r o w) as (e' & ->); auto; simpl; congruence ].
      destruct (angle (state w)) as [a|] eqn:Ha;
        [ | destruct (TurnToObject_act_raises r o w) as (e' & ->); auto; simpl; congruence ].
      rewrite (TurnToObject_act_eq rectify_angle_pi r o w ca fa a Hobj Hca Hfa Ha).
      simpl. congruence.
    + unfold FollowObject_act. step_m Hobj; congruence.
    + destruct (closest_obj_front_ang (state w)) as [fa|] eqn:Hfa;
        [ | unfold WallFollow_act; unfold_m; rewrite Hfa; simpl; congruence ].
      destruct (angle (state w)) as [a|] eqn:Ha;
        [ | unfold WallFollow_act; unfold_m; rewrite Hfa; simpl; rewrite Ha;
            simpl; congruence ].
      destruct (closest_obj_front_dist (state w)) as [d|] eqn:Hd;
        [ | unfold WallFollow_act; unfold_m; rewrite Hfa; simpl; rewrite Ha;
            simpl; rewrite Hd; simpl; congruence ].
      rewrite (WallFollow_act_eq r f w fa a d Hobj Hfa Ha Hd).
      destruct (in_position _ _ _ _ _) eqn:Hpos; simpl; [ | congruence ].
      intros _. exists r, f, a, d. repeat split; assumption.
Qed.


(** The body of the loops that end with [break], on a current action. *)
Lemma pass_until_done_eq (w : World) (r : ref) (a : Action) :
  current_action (state w) = Some r ->
  nth_error (objects w) r = Some a ->
  pass_until_done rectify_angle_pi euclidian_distance w =
    if done a then (Ok Break, w)
    else match act rectify_angle_pi euclidian_distance r w with
         | (Ok _, w') => (Ok Next, w')
         | (Raise e, w') => (Raise e, w')
         end.
Proof.
  intros Hc Hobj. unfold pass_until_done, current.
  unfold bind at 1. unfold bind at 1. unfold get_state. rewrite Hc.
  unfold ret at 1. unfold bind at 1. unfold deref. rewrite Hobj.
  destruct (done a); simpl; [ reflexivity | ].
  unfold bind.
  destruct (act rectify_angle_pi euclidian_distance r w) as [[[] | e] w'];
    reflexivity.
Qed.

Lemma pass_wall_follow_eq (w : World) (r : ref) (a : Action) :
  current_action (state w) = Some r ->
  nth_error (objects w) r = Some a ->
  pass_wall_follow rectify_angle_pi euclidian_distance w =
    if done a then
      if meter (state w) then (Ok Break, w)
      else match install (new_WallFollow rectify_angle_pi) w with
           | (Ok _, w') => (Ok Next, w')
           | (Raise e, w') => (Raise e, w')
           end
    else match act rectify_angle_pi euclidian_distance r w with
         | (Ok _, w') => (Ok Next, w')
         | (Raise e, w') => (Raise e, w')
         end.
Proof.
  intros Hc Hobj. unfold pass_wall_follow, current.
  unfold bind at 1. unfold bind at 1. unfold get_state. rewrite Hc.
  unfold ret at 1. unfold bind at 1. unfold deref. rewrite Hobj.
  destruct (done a); simpl.
  - unfold bind at 1. destruct (meter (state w)); [ reflexivity | ].
    unfold bind at 1.
    destruct (install (new_WallFollow rectify_angle_pi) w) as [[[] | e] w'];
      reflexivity.
  - unfold bind at 1.
    destruct (act rectify_angle_pi euclidian_distance r w) as [[[] | e] w'];
      reflexivity.
Qed.

(** One pass of the loop of lines 339-344 never leaves the loop. *)
Lemma pass_follow_object_flow (w : World) :
  fst (pass_follow_object rectify_angle_pi euclidian_distance w) <> Ok Break.
Proof.
  unfold pass_follow_object, current.
  unfold bind at 1. unfold bind at 1. unfold get_state.
  destruct (current_action (state w)) as [r|]; [ | discriminate ].
  unfold ret at 1. unfold bind at 1. unfold deref.
  destruct (nth_error (objects w) r) as [a|]; [ | discriminate ].
  destruct (negb (done a)).
  - unfold bind.
    destruct (act rectify_angle_pi euclidian_distance r w) as [[[] | e] w'];
      discriminate.
  - unfold bind at 1.
    destruct (install (new_WallFollow rectify_angle_pi) w) as [[[] | e] w'];
      discriminate.
Qed.

(** The loop of lines 339-344 has no way out: however many passes it makes
    from whatever world, it has not left through a [break], so the code
    after it runs only once the node is being shut down. *)
Theorem follow_object_loop_never_breaks (n : nat) (w : World) :
  fst (passes n (pass_follow_object rectify_angle_pi euclidian_distance) w)
  <> Ok Break.
Proof.
  revert w. induction n as [|n IH]; intros w; simpl.
  - discriminate.
  - unfold bind.
    pose proof (pass_follow_object_flow w) as H.
    destruct (pass_follow_object rectify_angle_pi euclidian_distance w)
      as [[[] | e] w']; simpl in *.
    + apply IH.
    + congruence.
    + discriminate.
Qed.

(** The loop of lines 360-368 on a [WallFollow] that is not done, in a
    world a run can reach: the first pass steps it, which leaves it done;
    the pass after that ends the loop, changing nothing, when [meter] is
    true, and otherwise publishes nothing and assigns a new [WallFollow],
    not done, to [current_action]. *)
Theorem wall_follow_loop (w : World) (r : ref) (f : WallFollow) :
  reachable w ->
  current_action (state w) = Some r ->
  nth_error (objects w) r = Some (AWallFollow f) ->
  WallFollow_done f = false ->
  exists w1,
    pass_wall_follow rectify_angle_pi euclidian_distance w = (Ok Next, w1) /\
    current_action (state w1) = Some r /\
    done_of w1 r = Some true /\
    (meter (state w1) = true ->
     pass_wall_follow rectify_angle_pi euclidian_distance w1 = (Ok Break, w1)) /\
    (meter (state w1) = false ->
     exists w2,
       pass_wall_follow rectify_angle_pi euclidian_distance w1 = (Ok Next, w2) /\
       published w2 = published w1 /\
       current_action (state w2) = Some (length (objects w1)) /\
       kind_at w2 (length (objects w1)) = Some KWallFollow /\
       done_of w2 (length (objects w1)) = Some false).
Proof.
  intros Hreach Hc Hobj Hdone.
  destruct (reachable_WallFollow rectify_angle_pi degrees_to_radians
              euclidian_distance euler_from_quaternion w r f Hreach Hobj)
    as (fa & a & d & Hfa & Ha & Hd & _).
  set (cmd := follow_command (WallFollow_lower_bound f) (WallFollow_upper_bound f)
                (WallFollow_angle_err_lim f) (WallFollow_clockwise f)
                (abs (WallFollow_target_angle f - a)) d).
  set (w0 := if in_position (WallFollow_lower_bound f) (WallFollow_upper_bound f)
                  (WallFollow_angle_err_lim f)
                  (abs (WallFollow_target_angle f - a)) d
             then on_state (set_meter true) (sent Twist0 (sent cmd w))
             else sent cmd w).
  set (w1 := marked r (AWallFollow f) w0).
  assert (Hobj0 : nth_error (objects w0) r = Some (AWallFollow f))
    by (unfold w0; destruct (in_position _ _ _ _ _); exact Hobj).
  assert (Hact : act rectify_angle_pi euclidian_distance r w = (Ok tt, w1)).
  { rewrite (act_on_object rectify_angle_pi euclidian_distance r w _ Hobj).
    apply (WallFollow_act_eq r f w fa a d Hobj Hfa Ha Hd). }
  assert (Hpass : pass_wall_follow rectify_angle_pi euclidian_distance w
                  = (Ok Next, w1)).
  { rewrite (pass_wall_follow_eq w r _ Hc Hobj). simpl. rewrite Hdone, Hact.
    reflexivity. }
  assert (Hobj1 : nth_error (objects w1) r = Some (set_done (AWallFollow f)))
    by (apply nth_error_marked; exact Hobj0).
  assert (Hc1 : current_action (state w1) = Some r)
    by (unfold w1, w0; destruct (in_position _ _ _ _ _); exact Hc).
  assert (Hfa1 : closest_obj_front_ang (state w1) = Some fa)
    by (unfold w1, w0; destruct (in_position _ _ _ _ _); exact Hfa).
  assert (Ha1 : angle (state w1) = Some a)
    by (unfold w1, w0; destruct (in_position _ _ _ _ _); exact Ha).
  exists w1.
  split; [ exact Hpass | split; [ exact Hc1 | ] ].
  split; [ unfold done_of; rewrite Hobj1; reflexivity | ].
  split.
  - intros Hm. rewrite (pass_wall_follow_eq w1 r _ Hc1 Hobj1).
    rewrite done_set_done, Hm. reflexivity.
  - intros Hm.
    set (g := mkWallFollow 0.9 1.1 0.04 (negb (geb (rectify_angle_pi fa) 0))
                (rectify_angle_pi (a + rectify_angle_pi fa)) false).
    exists (on_state (set_current_action (length (objects w1)))
              (stored (AWallFollow g) w1)).
    assert (Hinst : install (new_WallFollow rectify_angle_pi) w1
                    = (Ok tt, on_state (set_current_action (length (objects w1)))
                                (stored (AWallFollow g) w1))).
    { unfold install, new_WallFollow.
      unfold bind at 1. unfold bind at 1.
      rewrite (WallFollow_init_eq rectify_angle_pi w1 fa a Hfa1 Ha1).
      reflexivity. }
    split.
    + rewrite (pass_wall_follow_eq w1 r _ Hc1 Hobj1).
      rewrite done_set_done, Hm, Hinst. reflexivity.
    + split; [ reflexivity | split; [ reflexivity | ] ].
      unfold kind_at, done_of, on_state, stored. cbn [objects].
      rewrite nth_error_app2 by lia. rewrite Nat.sub_diag. simpl.
      split; reflexivity.
Qed.

(** The loop of lines 330-336, from a state in which a pose and a scan have
    been received: the first pass runs the dispatcher, which publishes
    nothing and makes a new [Turn] towards the nearest object the current
    action; the dispatcher is done but the loop goes on, and the next pass
    steps the [Turn]. *)
Theorem turn_to_object_loop (w : World) (ca fa a : float) :
  closest_obj_ang (state w) = Some ca ->
  closest_obj_front_ang (state w) = Some fa ->
  angle (state w) = Some a ->
  let r := length (objects w) in
  let t := mkTurn (negb (geb (rectify_angle_pi ca) 0))
             (rectify_angle_pi (a + rectify_angle_pi ca)) false in
  exists w1 w2 w3,
    install new_TurnToObject w = (Ok tt, w1) /\
    pass_until_done rectify_angle_pi euclidian_distance w1 = (Ok Next, w2) /\
    published w2 = published w /\
    done_of w2 r = Some true /\
    current_action (state w2) = Some (S r) /\
    nth_error (objects w2) (S r) = Some (ATurn t) /\
    pass_until_done rectify_angle_pi euclidian_distance w2 = (Ok Next, w3) /\
    Turn_act (S r) t w2 = (Ok tt, w3).
Proof.
  intros Hca Hfa Ha r t.
  set (o := mkTurnToObject false).
  set (w1 := on_state (set_current_action r) (stored (ATurnToObject o) w)).
  assert (Hobj1 : nth_error (objects w1) r = Some (ATurnToObject o)).
  { unfold w1, r, on_state, stored. cbn [objects].
    rewrite nth_error_app2 by lia. rewrite Nat.sub_diag. reflexivity. }
  assert (Hlen1 : length (objects w1) = S r).
  { unfold w1, r, on_state, stored. cbn [objects].
    rewrite length_app. simpl. lia. }
  set (w2 := marked r (ATurnToObject o)
               (on_state (set_current_action (length (objects w1)))
                  (stored (ATurn t) w1))).
  assert (Hact1 : act rectify_angle_pi euclidian_distance r w1 = (Ok tt, w2)).
  { rewrite (act_on_object rectify_angle_pi euclidian_distance r w1 _ Hobj1).
    apply (TurnToObject_act_eq rectify_angle_pi r o w1 ca fa a Hobj1 Hca Hfa Ha). }
  assert (Hobj1' : nth_error (objects w1 ++ [ATurn t]) r = Some (ATurnToObject o)).
  { rewrite nth_error_app1 by lia. exact Hobj1. }
  assert (Hobj2 : nth_error (objects w2) (S r) = Some (ATurn t)).
  { unfold w2, marked, on_state, stored. cbn [objects].
    rewrite (nth_error_store_set _ _ (S r) _ _ Hobj1').
    replace (Nat.eqb (S r) r) with false by (symmetry; apply Nat.eqb_neq; lia).
    rewrite nth_error_app2 by lia. rewrite Hlen1, Nat.sub_diag. reflexivity. }
  assert (Hc2 : current_action (state w2) = Some (S r)).
  { unfold w2, marked, on_state. cbn [state current_action set_current_action].
    rewrite Hlen1. reflexivity. }
  assert (Ha2 : angle (state w2) = Some a) by exact Ha.
  destruct (Turn_act (S r) t w2) as [res w3] eqn:Hturn.
  assert (Hres : res = Ok tt).
  { rewrite (Turn_act_eq (S r) t w2 a Hobj2 Ha2) in Hturn.
    destruct (gtb _ _); injection Hturn as <- _; reflexivity. }
  subst res.
  exists w1, w2, w3.
  split; [ reflexivity | ].
  split.
  { rewrite (pass_until_done_eq w1 r _ eq_refl Hobj1). simpl.
    rewrite Hact1. reflexivity. }
  split; [ reflexivity | ].
  split.
  { unfold done_of, w2, marked, on_state, stored. cbn [objects].
    rewrite (nth_error_store_set _ _ r _ _ Hobj1'), Nat.eqb_refl. reflexivity. }
  split; [ exact Hc2 | split; [ exact Hobj2 | ] ].
  split; [ | exact Hturn ].
  rewrite (pass_until_done_eq w2 (S r) _ Hc2 Hobj2). simpl.
  rewrite (act_on_object rectify_angle_pi euclidian_distance (S r) w2 _ Hobj2).
  rewrite Hturn. reflexivity.
Qed.

(** [update_scan] returns normally exactly when [findObjFront] does: then
    it has assigned the bearing of the nearest object of the full sweep, the
    pair the forward search returned, its bearing and its distance, and
    [ready]; when [findObjFront] raises, it ends with [ValueError] and the
    forward results and [ready] are what they were. *)
Theorem update_scan_result (msg : LaserScan) (w : World) :
  (forall i v,
      findObjFront (ranges msg) = Ok (i, v) ->
      exists i0 v0 w',
        findObj360 (ranges msg) = Ok (i0, v0) /\
        update_scan degrees_to_radians msg w = (Ok tt, w') /\
        closest_obj_ang (state w') = Some (degrees_to_radians i0) /\
        closest_obj_front (state w') = Some (i, v) /\
        closest_obj_front_ang (state w') = Some (degrees_to_radians i) /\
        closest_obj_front_dist (state w') = Some v /\
        ready (state w') = true) /\
  (forall e,
      findObjFront (ranges msg) = Raise e ->
      let w' := snd (update_scan degrees_to_radians msg w) in
      fst (update_scan degrees_to_radians msg w) = Raise ValueError /\
      closest_obj_front (state w') = closest_obj_front (state w) /\
      closest_obj_front_ang (state w') = closest_obj_front_ang (state w) /\
      closest_obj_front_dist (state w') = closest_obj_front_dist (state w) /\
      ready (state w') = ready (state w)).
Proof.
  pose proof (findObj360_spec (ranges msg)) as H360.
  pose proof (findObjFront_spec (ranges msg)) as Hfront.
  rewrite update_scan_eq. split.
  - intros i v E. rewrite E in *.
    destruct (findObj360 (ranges msg)) as [[i0 v0] | e0].
    + exists i0, v0. eexists. split; [ reflexivity | split; [ reflexivity | ] ].
      simpl. repeat split; reflexivity.
    + exfalso. destruct H360 as (_ & Hno).
      destruct Hfront as (t & t2 & ((j & Hj & Hn) & Hp & _) & _).
      rewrite (Hno j t) in Hp; [ discriminate | | exact Hn ].
      split; [ lia | apply nth_error_Some; congruence ].
  - intros e E. rewrite E in *. destruct Hfront as (-> & _).
    destruct (findObj360 (ranges msg)) as [[i0 v0] | e0].
    + simpl. repeat split; reflexivity.
    + destruct H360 as (-> & _). simpl. repeat split; reflexivity.
Qed.

(** What one step publishes: a [Turn] or [Drive] step that returns
    publishes exactly one command, a [FollowObject] or [WallFollow] step one
    or two, a [TurnToObject] step none, and a step that raises none; what
    was published before stays, in order. *)
Theorem act_publishes (r : ref) (w : World) :
  exists l,
    published (snd (act rectify_angle_pi euclidian_distance r w))
    = published w ++ l /\
    match fst (act rectify_angle_pi euclidian_distance r w), kind_at w r with
    | Ok _, Some (KTurn | KDrive) => length l = 1
    | Ok _, Some (KFollowObject | KWallFollow) => length l = 1 \/ length l = 2
    | _, _ => l = []
    end.
Proof.
  unfold act, bind, deref, kind_at. cbn beta.
  destruct (nth_error (objects w) r) as [a|] eqn:Hobj;
    [ | exists []; rewrite app_nil_r; split; reflexivity ].
  destruct a as [t | d | o | f | f]; cbn [option_map kind_of].
  - unfold Turn_act. step_m Hobj;
      first [ exists []; rewrite app_nil_r; split; reflexivity
            | eexists [_]; split; reflexivity ].
  - unfold Drive_act. step_m Hobj;
      first [ exists []; rewrite app_nil_r; split; reflexivity
            | eexists [_]; split; reflexivity ].
  - exists []. rewrite app_nil_r.
    destruct (closest_obj_ang (state w)) as [ca|] eqn:Hca;
      [ | destruct (TurnToObject_act_raises r o w) as (e' & ->);
          [ auto | split; reflexivity ] ].
    destruct (closest_obj_front_ang (state w)) as [fa|] eqn:Hfa;
      [ | destruct (TurnToObject_act_raises r o w) as (e' & ->);
          [ auto | split; reflexivity ] ].
    destruct (angle (state w)) as [a|] eqn:Ha;
      [ | destruct (TurnToObject_act_raises r o w) as (e' & ->);
          [ auto | split; reflexivity ] ].
    rewrite (TurnToObject_act_eq rectify_angle_pi r o w ca fa a Hobj Hca Hfa Ha).
    split; reflexivity.
  - unfold FollowObject_act. step_m Hobj;
      first [ exists []; rewrite app_nil_r; split; reflexivity
            | eexists [_]; split; [ reflexivity | left; reflexivity ]
            | eexists [_; _]; rewrite <- app_assoc;
              split; [ reflexivity | right; reflexivity ] ].
  - unfold WallFollow_act. step_m Hobj;
      first [ exists []; rewrite app_nil_r; split; reflexivity
            | eexists [_]; split; [ reflexivity | left; reflexivity ]
            | eexists [_; _]; rewrite <- app_assoc;
              split; [ reflexivity | right; reflexivity ] ].
Qed.

End RunProperties.

(** The nearest object of the full sweep is no farther than the nearest
    object of the forward cone: whenever [findObjFront] returns on an array,
    [findObj360] returns on it too, with a value that is not greater. *)
Theorem findObj360_below_findObjFront (array : list float) (i' : nat) (v' : float) :
  findObjFront array = Ok (i', v') ->
  exists i v, findObj360 array = Ok (i, v) /\ (v <=? v')%float = true.
Proof.
  intros E.
  pose proof (findObjFront_spec array) as Hf. rewrite E in Hf.
  assert (Hin : exists j, j < length array /\ nth_error array j = Some v' /\
                          (0 <? v')%float = true).
  { destruct Hf as (t & t2 & (_ & Hp & _) & (_ & Hp2 & _) &
                    [(_ & -> & (_ & Hn & _)) | (_ & -> & (_ & Hn & _))]);
      exists i'; (split; [ apply nth_error_Some; congruence | split; assumption ]). }
  destruct Hin as (j & Hj & Hn & Hp).
  pose proof (findObj360_spec array) as H.
  destruct (findObj360 array) as [[i v] | e].
  - exists i, v. split; [ reflexivity | ].
    destruct H as ((_ & _ & Hmin) & _).
    apply (Hmin j v'); [ lia | exact Hn | exact Hp ].
  - destruct H as (_ & Hno). rewrite (Hno j v') in Hp; [ discriminate | lia | exact Hn ].
Qed.

(* ================================================================== *)
(** * Examples: the properties at concrete scans and worlds *)
(* ================================================================== *)

Lemma min_positive_in_computed (array : list float) (lo hi : nat) (v : float) :
  py_min (positive (slice lo hi array)) = Ok v -> min_positive_in array lo hi v.
Proof.
  intros E. pose proof (slice_search array lo hi) as H.
  rewrite E in H. apply H.
Qed.

Lemma no_positive_in_computed (array : list float) (lo hi : nat) :
  py_min (positive (slice lo hi array)) = Raise ValueError ->
  no_positive_in array lo hi.
Proof.
  intros E. pose proof (slice_search array lo hi) as H.
  rewrite E in H. apply H.
Qed.

(** C1, the failing input: for the delta pi/2, which is [>= 0], the
    constructed [Turn] has [clockwise = False], where the docstring of the
    class says that for a positive angle the robot will turn clockwise. *)
Lemma Turn_init_clockwise_is_not_geb :
  exists t,
    Turn_init rectify_angle_pi_model (pi / 2)
      (run_example [EOdom odom_identity] World_init)
    = (Ok t, run_example [EOdom odom_identity] World_init) /\
    geb (pi / 2) 0 = true /\
    Turn_clockwise t = false.
Proof.
  eexists. split; [ vm_compute; reflexivity | split; reflexivity ].
Qed.

Lemma Turn_init_clockwise_example :
  Turn_clockwise (mkTurn false 1.5707963267948966 false)
  = negb (geb (pi / 2) 0).
Proof.
  apply (Turn_init_clockwise rectify_angle_pi_model (pi / 2)
           (run_example [EOdom odom_identity] World_init)
           (run_example [EOdom odom_identity] World_init)).
  vm_compute. reflexivity.
Defined.


(** C3, the failing input: the only return of the scan is in the forward
    cone, at bearing 10; the full sweep finds it, the forward search raises,
    the right half cone [315, 360) being empty. *)
Theorem findObjFront_raises_on_one_sided_cone :
  length scan_left_only = 360 /\
  nth_error scan_left_only 10 = Some 0.5%float /\
  min_positive_in scan_left_only 0 45 0.5 /\
  no_positive_in scan_left_only 315 360 /\
  findObj360 scan_left_only = Ok (10, 0.5%float) /\
  findObjFront scan_left_only = Raise ValueError.
Proof.
  split; [ reflexivity | split; [ reflexivity | split ] ].
  - apply min_positive_in_computed. vm_compute. reflexivity.
  - split; [ apply no_positive_in_computed; vm_compute; reflexivity | ].
    split; vm_compute; reflexivity.
Qed.



Lemma FollowObject_act_always_done_example :
  exists w', act_example 0 world_follow = (Ok tt, w') /\ done_of w' 0 = Some true.
Proof.
  eapply (FollowObject_act_always_done rectify_angle_pi_model
            degrees_to_radians_model euclidian_distance_model euler_of_identity
            world_follow 0).
  - exists [EOdom odom_identity; EScan scan_example; EInstall CFollowObject].
    reflexivity.
  - vm_compute. reflexivity.
Defined.

Lemma WallFollow_act_meter_example :
  meter (state world_wall) = false /\
  exists w', act_example 0 world_wall = (Ok tt, w') /\ meter (state w') = true.
Proof.
  split; [ vm_compute; reflexivity | ].
  edestruct (WallFollow_act_meter rectify_angle_pi_model
               degrees_to_radians_model euclidian_distance_model
               euler_of_identity world_wall 0)
    as (a & d & w' & Ha & Hd & Hact & Hmeter).
  - exists [EOdom odom_identity; EScan scan_wall; EInstall CWallFollow].
    reflexivity.
  - vm_compute. reflexivity.
  - exists w'. split; [ exact Hact | ].
    vm_compute in Ha, Hd. injection Ha as <-. injection Hd as <-.
    rewrite Hmeter. vm_compute. reflexivity.
Defined.

(** C8, the claim as stated fails: the step of the [TurnToObject] that is
    the current action makes a [Turn] the current action. *)
Lemma TurnToObject_act_installs_Turn :
  current_action (state world_turn_to_object) = Some 0 /\
  kind_at world_turn_to_object 0 = Some KTurnToObject /\
  let w' := snd (act_example 0 world_turn_to_object) in
  current_action (state w') = Some 1 /\
  kind_at w' 1 = Some KTurn.
Proof. repeat split; vm_compute; reflexivity. Qed.

Lemma act_current_action_example :
  let w' := snd (act_example 0 world_follow) in
  kind_at world_follow 0 = Some KFollowObject /\
  current_action (state w') = current_action (state world_follow).
Proof.
  cbn zeta. split; [ vm_compute; reflexivity | ].
  assert (H : exists f, nth_error (objects world_follow) 0 = Some (AFollowObject f))
    by (eexists; vm_compute; reflexivity).
  destruct H as (f & Hobj).
  apply (proj1 (act_current_action rectify_angle_pi_model
                  euclidian_distance_model 0 world_follow (AFollowObject f) Hobj)).
  simpl. discriminate.
Defined.

Lemma update_scan_not_atomic_example :
  let r := update_scan degrees_to_radians_model scan_behind World_init in
  fst r = Raise ValueError /\
  closest_obj_ang (state (snd r)) = Some (degrees_to_radians_model 100) /\
  closest_obj_front_dist (state (snd r)) = None /\
  ready (state (snd r)) = false.
Proof.
  cbn zeta.
  destruct (update_scan_not_atomic degrees_to_radians_model scan_behind World_init)
    as (i & v & H360 & Heq & Hang & _ & _ & Hdist & Hready).
  - exists 100, 2%float. split; [ lia | split; reflexivity ].
  - apply no_positive_in_computed. vm_compute. reflexivity.
  - vm_compute in H360. injection H360 as <- <-.
    rewrite Heq in *. simpl in *.
    split; [ reflexivity | split; [ exact Hang | split; reflexivity ] ].
Defined.

Lemma findObjFront_tie_first_index_example :
  exists i,
    findObjFront scan_tie = Ok (i, 0.5%float) /\
    first_index_in scan_tie 0 45 0.5 i.
Proof.
  apply (proj1 (findObjFront_tie_first_index scan_tie)).
  - apply min_positive_in_computed. vm_compute. reflexivity.
  - apply min_positive_in_computed. vm_compute. reflexivity.
Defined.

Lemma follow_object_loop_hands_over_example :
  exists w2 w3,
    pass_follow_object rectify_angle_pi_model euclidian_distance_model
      world_follow = (Ok Next, w2) /\
    done_of w2 0 = Some true /\
    pass_follow_object rectify_angle_pi_model euclidian_distance_model
      w2 = (Ok Next, w3) /\
    current_action (state w3) = Some 1 /\
    kind_at w3 1 = Some KWallFollow.
Proof.
  destruct (follow_object_loop_hands_over rectify_angle_pi_model
              degrees_to_radians_model euclidian_distance_model
              euler_of_identity
              (run_example [EOdom odom_identity; EScan scan_example] World_init)
              world_follow)
    as (w2 & w3 & _ & _ & _ & H1 & _ & Hd & H2 & _ & Hc & Hk & _).
  - exists [EOdom odom_identity; EScan scan_example]. reflexivity.
  - vm_compute. reflexivity.
  - exists w2, w3.
    split; [ exact H1 | split; [ exact Hd | split; [ exact H2 | ] ] ].
    split; [ exact Hc | exact Hk ].
Defined.

Lemma Drive_act_tolerance_example :
  exists w',
    act_example 0 world_drive = (Ok tt, w') /\
    published w' = [{| linear_x := 0.2; angular_z := 0 |}] /\
    done_of w' 0 = Some false.
Proof.
  destruct (Drive_act_tolerance rectify_angle_pi_model euclidian_distance_model
              0 (mkDrive (Some 0%float) (Some 0%float) true 1 false)
              world_drive 0 0 0 0)
    as (w' & Hact & Hfar & _);
    try (vm_compute; reflexivity).
  exists w'. split; [ exact Hact | ].
  apply Hfar. vm_compute. reflexivity.
Defined.

Lemma FollowObject_act_commands_example :
  exists w',
    act_example 0 world_follow = (Ok tt, w') /\
    published w' = [{| linear_x := 0; angular_z := 0.4 |}].
Proof.
  edestruct (FollowObject_act_commands rectify_angle_pi_model
               degrees_to_radians_model euclidian_distance_model
               euler_of_identity world_follow 0)
    as (a & d & w' & Ha & Hd & Hact & Hpub).
  - exists [EOdom odom_identity; EScan scan_example; EInstall CFollowObject].
    reflexivity.
  - vm_compute. reflexivity.
  - exists w'. split; [ exact Hact | ].
    vm_compute in Ha, Hd. injection Ha as <-. injection Hd as <-.
    rewrite Hpub. vm_compute. reflexivity.
Defined.

Lemma WallFollow_act_commands_example :
  exists w',
    act_example 0 world_wall = (Ok tt, w') /\
    published w' = [Twist0; Twist0].
Proof.
  edestruct (WallFollow_act_commands rectify_angle_pi_model
               degrees_to_radians_model euclidian_distance_model
               euler_of_identity world_wall 0)
    as (a & d & w' & Ha & Hd & Hact & Hpub).
  - exists [EOdom odom_identity; EScan scan_wall; EInstall CWallFollow].
    reflexivity.
  - vm_compute. reflexivity.
  - exists w'. split; [ exact Hact | ].
    vm_compute in Ha, Hd. injection Ha as <-. injection Hd as <-.
    rewrite Hpub. vm_compute. reflexivity.
Defined.

Lemma act_raise_unchanged_example :
  fst (act_example 0 world_blind) = Raise AttributeError /\
  snd (act_example 0 world_blind) = world_blind.
Proof.
  split; [ vm_compute; reflexivity | ].
  apply (act_raise_unchanged rectify_angle_pi_model euclidian_distance_model
           0 world_blind AttributeError).
  vm_compute. reflexivity.
Defined.

Lemma objects_persist_example :
  exists a,
    nth_error (objects world_follow) 0 = Some a /\
    (nth_error
       (objects (run_example [EAct 0; EScan scan_wall; EInstall CWallFollow; EAct 1]
                   world_follow)) 0 = Some a \/
     nth_error
       (objects (run_example [EAct 0; EScan scan_wall; EInstall CWallFollow; EAct 1]
                   world_follow)) 0 = Some (set_done a)).
Proof.
  eexists. split; [ vm_compute; reflexivity | ].
  apply (objects_persist rectify_angle_pi_model degrees_to_radians_model
           euclidian_distance_model euler_of_identity).
  vm_compute. reflexivity.
Defined.

Lemma meter_set_only_by_WallFollow_example :
  exists r f a d,
    EAct 0 = EAct r /\
    nth_error (objects world_wall) r = Some (AWallFollow f) /\
    angle (state world_wall) = Some a /\
    closest_obj_front_dist (state world_wall) = Some d /\
    in_position (WallFollow_lower_bound f) (WallFollow_upper_bound f)
      (WallFollow_angle_err_lim f)
      (abs (WallFollow_target_angle f - a)) d = true.
Proof.
  apply (meter_set_only_by_WallFollow rectify_angle_pi_model
           degrees_to_radians_model euclidian_distance_model euler_of_identity).
  - vm_compute. reflexivity.
  - vm_compute. reflexivity.
Defined.

Lemma wall_follow_loop_example :
  exists w1,
    pass_wall_follow rectify_angle_pi_model euclidian_distance_model world_wall
    = (Ok Next, w1) /\
    meter (state w1) = true /\
    pass_wall_follow rectify_angle_pi_model euclidian_distance_model w1
    = (Ok Break, w1).
Proof.
  edestruct (wall_follow_loop rectify_angle_pi_model degrees_to_radians_model
               euclidian_distance_model euler_of_identity world_wall 0)
    as (w1 & Hpass & _ & _ & Hbreak & _).
  - exists [EOdom odom_identity; EScan scan_wall; EInstall CWallFollow].
    reflexivity.
  - vm_compute. reflexivity.
  - vm_compute. reflexivity.
  - reflexivity.
  - assert (Hm : meter (state w1) = true).
    { vm_compute in Hpass. injection Hpass as <-. reflexivity. }
    exists w1. split; [ exact Hpass | split; [ exact Hm | exact (Hbreak Hm) ] ].
Defined.

Lemma turn_to_object_loop_example :
  exists w1 w2 w3,
    install new_TurnToObject world_sensed = (Ok tt, w1) /\
    pass_until_done rectify_angle_pi_model euclidian_distance_model w1
    = (Ok Next, w2) /\
    published w2 = [] /\
    kind_at w2 1 = Some KTurn /\
    pass_until_done rectify_angle_pi_model euclidian_distance_model w2
    = (Ok Next, w3).
Proof.
  destruct (turn_to_object_loop rectify_angle_pi_model euclidian_distance_model
              world_sensed 1.5707963267948966 0.52359877559829882 0)
    as (w1 & w2 & w3 & H1 & H2 & Hp & _ & _ & Hobj & H3 & _).
  - vm_compute. reflexivity.
  - vm_compute. reflexivity.
  - vm_compute. reflexivity.
  - exists w1, w2, w3.
    split; [ exact H1 | split; [ exact H2 | split; [ exact Hp | ] ] ].
    split; [ | exact H3 ].
    unfold kind_at.
    change 1 with (S (length (objects world_sensed))).
    rewrite Hobj. reflexivity.
Defined.

Lemma findObj360_below_findObjFront_example :
  exists i v,
    findObj360 (ranges scan_example) = Ok (i, v) /\ (v <=? 0.5)%float = true.
Proof.
  apply (findObj360_below_findObjFront (ranges scan_example) 30 0.5).
  vm_compute. reflexivity.
Defined.
